(** * Salvage of a damaged bbolt store: a model of [main.go]

    The program copies every bucket of a read-only, possibly damaged bbolt
    store into a second store, one write transaction per top-level bucket.
    Damage shows up as a Go panic raised by the storage engine in the middle
    of an enumeration; [recoverBucket] and [recoverSubBucket] each install a
    deferred [recover()].

    The storage engine is a library.  Its source side is modelled as data: a
    bucket is the list of entries its enumeration yields, followed by the
    way the enumeration ends.  Its destination side is modelled as a finite
    map from keys to values and nested buckets, with the checks [Put] and
    [CreateBucketIfNotExists] document.  Calls on the destination return
    errors, they do not panic; a read transaction is always granted.  The
    last line the program prints, which repeats the destination path, is
    not part of the output kept here.

    Go passes mutable state around: captured variables of the callbacks,
    named results, the transaction.  Here every function takes the state
    it reads and returns the state it leaves, together with what it
    printed. *)

From Stdlib Require Import List String ZArith Lia Bool Arith.
From Stdlib.Strings Require Import Byte.
Import ListNotations.
Open Scope string_scope.
Open Scope list_scope.

Set Implicit Arguments.
Set Warnings "-register-all".

(** ** Byte slices *)

Definition bytes := list byte.

(** A Go [[]byte] seen by a callback: [None] is the nil slice, [Some []] an
    empty slice that is not nil. *)
Definition slice := option bytes.

Definition make (n : nat) : bytes := repeat x00 n.

(** [copy(dst, src)] overwrites the first [min (len dst) (len src)] bytes. *)
Definition copy (dst src : bytes) : bytes :=
  firstn (List.length dst) src ++ skipn (List.length src) dst.

(** [c := make([]byte, len(s)); copy(c, s)] *)
Definition clone (s : bytes) : bytes := copy (make (List.length s)) s.

Fixpoint bytes_eqb (a b : bytes) : bool :=
  match a, b with
  | [], [] => true
  | x :: a', y :: b' => Byte.eqb x y && bytes_eqb a' b'
  | _, _ => false
  end.

Definition len (s : bytes) : Z := Z.of_nat (List.length s).

Definition B (s : string) : bytes := list_byte_of_string s.

(** ** The source store *)

(** How an enumeration ends once its entries are exhausted: normally, with
    an error value returned by [ForEach], or with a panic, which a
    deferred [recover()] catches.  A fault of the runtime that [recover()]
    cannot catch ends the process; no source of this model has one. *)
Inductive ending : Type :=
  | Done
  | Failed (e : string)
  | Unwound (r : string).

(** An entry is a key with a value, or a key flagged as a nested bucket
    together with the bucket stored under it ([None]: opening it answers a
    nil handle). *)
Inductive bucket : Type :=
  | MkBucket (items : list item) (fin : ending)
with item : Type :=
  | Value (k v : bytes)
  | Marker (k : bytes) (sub : option bucket).

Definition items_of (b : bucket) : list item :=
  match b with MkBucket items _ => items end.

Definition fin_of (b : bucket) : ending :=
  match b with MkBucket _ fin => fin end.

Definition item_key (it : item) : bytes :=
  match it with Value k _ => k | Marker k _ => k end.

(** The value [ForEach] hands to its callback: nil exactly for a key
    flagged as a bucket. *)
Definition item_value (it : item) : slice :=
  match it with Value _ v => Some v | Marker _ _ => None end.

(** [b.Bucket(name)]: seek the key; a key that is absent or is not flagged
    as a bucket gives nil. *)
Fixpoint find_bucket (items : list item) (name : bytes) : option bucket :=
  match items with
  | [] => None
  | it :: rest =>
      if bytes_eqb (item_key it) name
      then match it with Marker _ sub => sub | Value _ _ => None end
      else find_bucket rest name
  end.

Definition Bucket_Bucket (b : bucket) (name : bytes) : option bucket :=
  find_bucket (items_of b) name.

(** What a call into the engine does: return an [error] (possibly nil) or
    panic. *)
Inductive outcome : Type :=
  | Returned (err : option string)
  | Panicked (r : string).

Definition outcome_of (fin : ending) : outcome :=
  match fin with
  | Done => Returned None
  | Failed e => Returned (Some e)
  | Unwound r => Panicked r
  end.

(** [b.ForEach(fn)]: the callback mutates captured variables, here the
    state [S]; whatever it has done stays done when the walk panics. *)
Fixpoint forEach {S : Type} (fn : bytes -> slice -> S -> S * option string)
    (items : list item) (fin : ending) (s : S) : S * outcome :=
  match items with
  | [] => (s, outcome_of fin)
  | it :: rest =>
      match fn (item_key it) (item_value it) s with
      | (s', None) => forEach fn rest fin s'
      | (s', Some e) => (s', Returned (Some e))
      end
  end.

Definition Bucket_ForEach {S : Type} (b : bucket)
    (fn : bytes -> slice -> S -> S * option string) (s : S) : S * outcome :=
  forEach fn (items_of b) (fin_of b) s.

(** [src.View(fn)]: a read transaction on the root bucket. *)
Definition View {S : Type} (src : bucket) (fn : bucket -> S -> S * outcome)
    (s : S) : S * outcome :=
  fn src s.

(** ** The destination store *)

Inductive result (A : Type) : Type :=
  | OK (a : A)
  | Err (e : string).
Arguments OK {A} a.
Arguments Err {A} e.

Inductive node : Type :=
  | Leaf (v : bytes)
  | Nested (t : list (bytes * node)).

(** The contents of a bucket, and the root of a store (which holds buckets
    only). *)
Definition tree := list (bytes * node).
Definition store := list (bytes * tree).

Fixpoint lookup {A : Type} (k : bytes) (m : list (bytes * A)) : option A :=
  match m with
  | [] => None
  | (k', a) :: rest => if bytes_eqb k' k then Some a else lookup k rest
  end.

(** Insert or replace.  The program never enumerates the destination, so
    the position of a key is not observable. *)
Fixpoint upsert {A : Type} (k : bytes) (a : A) (m : list (bytes * A))
    : list (bytes * A) :=
  match m with
  | [] => [(k, a)]
  | (k', a') :: rest =>
      if bytes_eqb k' k then (k, a) :: rest else (k', a') :: upsert k a rest
  end.

Definition MaxKeySize : Z := 32768.
Definition MaxValueSize : Z := 2147483646.

Definition ErrKeyRequired : string := "key required".
Definition ErrKeyTooLarge : string := "key too large".
Definition ErrValueTooLarge : string := "value too large".
Definition ErrIncompatibleValue : string := "incompatible value".
Definition ErrBucketNameRequired : string := "bucket name required".

(** The checks of [Put] that do not depend on the bucket. *)
Definition put_check (key value : bytes) : option string :=
  match key with
  | [] => Some ErrKeyRequired
  | _ =>
      if (MaxKeySize <? len key)%Z then Some ErrKeyTooLarge
      else if (MaxValueSize <? len value)%Z then Some ErrValueTooLarge
      else None
  end.

(** [b.Put(key, value)] *)
Definition Put (b : tree) (key value : bytes) : result tree :=
  match put_check key value with
  | Some e => Err e
  | None =>
      match lookup key b with
      | Some (Nested _) => Err ErrIncompatibleValue
      | _ => OK (upsert key (Leaf value) b)
      end
  end.

(** [b.CreateBucketIfNotExists(name)]: the bucket after the call and the
    contents of the child the returned handle points to. *)
Definition CreateBucketIfNotExists (b : tree) (name : bytes)
    : result (tree * tree) :=
  match name with
  | [] => Err ErrBucketNameRequired
  | _ =>
      match lookup name b with
      | Some (Leaf _) => Err ErrIncompatibleValue
      | Some (Nested c) => OK (b, c)
      | None => OK (upsert name (Nested []) b, [])
      end
  end.

(** [tx.CreateBucketIfNotExists(name)] on the root. *)
Definition Tx_CreateBucketIfNotExists (tx : store) (name : bytes)
    : result (store * tree) :=
  match name with
  | [] => Err ErrBucketNameRequired
  | _ =>
      match lookup name tx with
      | Some c => OK (tx, c)
      | None => OK (upsert name [] tx, [])
      end
  end.

(** [dst.Update(fn)]: run [fn] on a transaction; an error from [fn] or from
    the commit ([commit]: the error the engine reports when committing
    this transaction, if any) discards the transaction.  What [fn] did to
    captured variables ([S]) stays. *)
Definition Update {S : Type} (commit : option string) (dst : store)
    (fn : store -> S -> store * S * option string) (s : S)
    : store * S * option string :=
  match fn dst s with
  | (_, s', Some e) => (dst, s', Some e)
  | (tx', s', None) =>
      match commit with
      | Some e => (dst, s', Some e)
      | None => (tx', s', None)
      end
  end.

(** ** What an observer sees

    The lines the program prints, and the writes the destination accepted
    ([Wrote], with the path of the bucket written into). *)

Inductive event : Type :=
  | Usage
  | FatalOpenSource (e : string)
  | FatalCreateDestination (e : string)
  | FatalListBuckets (e : string)
  | Crash (r : string)
  | Found (n : nat)
  | Recovering (bucketName : bytes)
  | PanicBucket (bucketName : bytes) (r : string) (recovered : nat)
  | ReadError (bucketName : bytes) (e : string)
  | WarnKey (e : string)
  | WarnSubBucket (subName : bytes) (e : string)
  | WriteError (bucketName : bytes) (e : string)
  | BucketOK (keys subs : nat)
  | PanicSubBucket (parentName : bytes) (r : string) (recovered : nat)
  | Summary (totalKeys failedBuckets buckets : nat)
  | Wrote (path : list bytes) (k v : bytes).

(** ** The program *)

Record kv : Type := { key : bytes; value : bytes }.

Record subbucket : Type := { name : bytes; data : list kv }.

(** The callback of [recoverSubBucket]; [pairs] is the captured result. *)
Definition stage_sub_entry (k : bytes) (v : slice) (pairs : list kv)
    : list kv * option string :=
  match v with
  | None => (pairs, None)
  | Some v =>
      let keyCopy := clone k in
      let valCopy := clone v in
      (pairs ++ [{| key := keyCopy; value := valCopy |}], None)
  end.

(** The deferred [recover()] prints and lets the named result [pairs]
    through; the error of [ForEach] is dropped. *)
Definition recoverSubBucket (b : bucket) (parentName : bytes)
    : list kv * list event :=
  match Bucket_ForEach b stage_sub_entry [] with
  | (pairs, Panicked r) =>
      (pairs, [PanicSubBucket parentName r (List.length pairs)])
  | (pairs, Returned _) => (pairs, [])
  end.

(** The callback of [recoverBucket]; the captured variables are [pairs],
    [subs] and the output so far. *)
Definition staging : Type := (list kv * list subbucket * list event)%type.

Definition stage_entry (b : bucket) (bucketName : bytes)
    (k : bytes) (v : slice) (st : staging) : staging * option string :=
  let '(pairs, subs, log) := st in
  match v with
  | None =>
      match Bucket_Bucket b k with
      | Some sub =>
          let nameCopy := clone k in
          let '(subData, evs) := recoverSubBucket sub bucketName in
          ((pairs, subs ++ [{| name := nameCopy; data := subData |}],
            log ++ evs), None)
      | None => ((pairs, subs, log), None)
      end
  | Some v =>
      let keyCopy := clone k in
      let valCopy := clone v in
      ((pairs ++ [{| key := keyCopy; value := valCopy |}], subs, log), None)
  end.

(** The function passed to [src.View]. *)
Definition read_bucket (bucketName : bytes) (tx : bucket) (st : staging)
    : staging * outcome :=
  match Bucket_Bucket tx bucketName with
  | None => (st, Returned (Some "bucket not found"))
  | Some b => Bucket_ForEach b (stage_entry b bucketName) st
  end.

(** [for _, p := range ps { if err := b.Put(...); err != nil { ...; continue };
    recovered++ }].  The loop over a bucket's own pairs prints a warning
    ([warn]), the loop over the pairs of a sub-bucket does not. *)
Fixpoint put_each (warn : bool) (path : list bytes) (ps : list kv)
    (b : tree) (recovered : nat) : tree * nat * list event :=
  match ps with
  | [] => (b, recovered, [])
  | p :: rest =>
      match Put b (key p) (value p) with
      | Err e =>
          let '(b', n, evs) := put_each warn path rest b recovered in
          (b', n, (if warn then [WarnKey e] else []) ++ evs)
      | OK b1 =>
          let '(b', n, evs) := put_each warn path rest b1 (S recovered) in
          (b', n, Wrote path (key p) (value p) :: evs)
      end
  end.

(** [for _, sb := range subs { ... }] *)
Fixpoint write_subs (bucketName : bytes) (subs : list subbucket)
    (b : tree) (recovered : nat) : tree * nat * list event :=
  match subs with
  | [] => (b, recovered, [])
  | sb :: rest =>
      match CreateBucketIfNotExists b (name sb) with
      | Err e =>
          let '(b', n, evs) := write_subs bucketName rest b recovered in
          (b', n, WarnSubBucket (name sb) e :: evs)
      | OK (b1, child) =>
          let '(child', n1, evs1) :=
            put_each false [bucketName; name sb] (data sb) child recovered in
          let '(b', n, evs) :=
            write_subs bucketName rest (upsert (name sb) (Nested child') b1) n1 in
          (b', n, evs1 ++ evs)
      end
  end.

(** The function passed to [dst.Update]; it captures [recovered] and
    prints. *)
Definition write_bucket (bucketName : bytes) (pairs : list kv)
    (subs : list subbucket) (tx : store) (s : nat * list event)
    : store * (nat * list event) * option string :=
  let '(recovered, log) := s in
  match Tx_CreateBucketIfNotExists tx bucketName with
  | Err e => (tx, (recovered, log), Some e)
  | OK (tx1, b) =>
      let '(b1, n1, evs1) := put_each true [bucketName] pairs b recovered in
      let '(b2, n2, evs2) := write_subs bucketName subs b1 n1 in
      (upsert bucketName b2 tx1, (n2, log ++ evs1 ++ evs2), None)
  end.

(** [recoverBucket(src, dst, bucketName) (recovered int, ok bool)].
    [commit] says which error, if any, the destination reports when the
    transaction of a bucket commits.  A panic in the read transaction
    reaches the deferred [recover()], which sets [ok = false]; the function
    then returns, and the statements after [src.View] do not run. *)
Definition recoverBucket (src : bucket) (commit : bytes -> option string)
    (dst : store) (bucketName : bytes) : store * list event * nat * bool :=
  let recovered := 0 in
  let '((pairs, subs, log), res) :=
    View src (read_bucket bucketName) ([], [], [Recovering bucketName]) in
  match res with
  | Panicked r =>
      (dst, log ++ [PanicBucket bucketName r recovered], recovered, false)
  | Returned err =>
      let log :=
        log ++ match err with
               | Some e => [ReadError bucketName e]
               | None => []
               end in
      let '(dst', (recovered, log), writeErr) :=
        Update (commit bucketName) dst (write_bucket bucketName pairs subs)
               (recovered, log) in
      match writeErr with
      | Some e => (dst', log ++ [WriteError bucketName e], recovered, false)
      | None =>
          (dst', log ++ [BucketOK (List.length pairs) (List.length subs)],
           recovered, true)
      end
  end.

(** The callback of the listing in [main]. *)
Definition collect_name (k : bytes) (_ : slice) (bucketNames : list bytes)
    : list bytes * option string :=
  let nameCopy := clone k in
  (bucketNames ++ [nameCopy], None).

(** [for _, bname := range bucketNames { ... }] *)
Fixpoint recover_all (src : bucket) (commit : bytes -> option string)
    (bucketNames : list bytes) (dst : store) (totalKeys failedBuckets : nat)
    : store * list event * nat * nat :=
  match bucketNames with
  | [] => (dst, [], totalKeys, failedBuckets)
  | bname :: rest =>
      let '(dst1, evs1, keys, ok) := recoverBucket src commit dst bname in
      let '(dst', evs, total, failed) :=
        recover_all src commit rest dst1 (totalKeys + keys)
                    (if ok then failedBuckets else S failedBuckets) in
      (dst', evs1 ++ evs, total, failed)
  end.

(** What the process is started with: its arguments, what opening each
    store gives, and the commit errors of the destination. *)
Record world : Type := {
  args : list string;
  open_src : result bucket;
  open_dst : result store;
  commit_error : bytes -> option string
}.

Record run : Type := {
  exit_status : nat;
  output : list event;
  dest : option store
}.

Definition main (w : world) : run :=
  if negb (List.length (args w) =? 3)%nat then
    {| exit_status := 1; output := [Usage]; dest := None |}
  else
    match open_src w with
    | Err e =>
        {| exit_status := 1; output := [FatalOpenSource e]; dest := None |}
    | OK src =>
        match open_dst w with
        | Err e =>
            {| exit_status := 1; output := [FatalCreateDestination e];
               dest := None |}
        | OK dst =>
            match View src (fun tx => Bucket_ForEach tx collect_name) [] with
            | (_, Panicked r) =>
                {| exit_status := 2; output := [Crash r]; dest := Some dst |}
            | (_, Returned (Some e)) =>
                {| exit_status := 1; output := [FatalListBuckets e];
                   dest := Some dst |}
            | (bucketNames, Returned None) =>
                let '(dst', log, totalKeys, failedBuckets) :=
                  recover_all src (commit_error w) bucketNames dst 0 0 in
                {| exit_status := if (0 <? failedBuckets)%nat then 1 else 0;
                   output :=
                     Found (List.length bucketNames) :: log ++
                     [Summary totalKeys failedBuckets (List.length bucketNames)];
                   dest := Some dst' |}
            end
        end
    end.

(** ** The two phases of [recoverBucket], described directly *)

(** The pairs an enumeration stages: its value entries, in order. *)
Fixpoint values_of (items : list item) : list kv :=
  match items with
  | [] => []
  | Value k v :: rest => {| key := k; value := v |} :: values_of rest
  | Marker _ _ :: rest => values_of rest
  end.

(** The sub-buckets the enumeration of [b] stages from [items], and what
    their recovery prints. *)
Fixpoint staged_subs (b : bucket) (bucketName : bytes) (items : list item)
    : list subbucket :=
  match items with
  | [] => []
  | Value _ _ :: rest => staged_subs b bucketName rest
  | Marker k _ :: rest =>
      match Bucket_Bucket b k with
      | Some sub =>
          {| name := k; data := fst (recoverSubBucket sub bucketName) |}
            :: staged_subs b bucketName rest
      | None => staged_subs b bucketName rest
      end
  end.

Fixpoint staged_log (b : bucket) (bucketName : bytes) (items : list item)
    : list event :=
  match items with
  | [] => []
  | Value _ _ :: rest => staged_log b bucketName rest
  | Marker k _ :: rest =>
      match Bucket_Bucket b k with
      | Some sub =>
          snd (recoverSubBucket sub bucketName) ++ staged_log b bucketName rest
      | None => staged_log b bucketName rest
      end
  end.

(** The statements of [recoverBucket] after [src.View], on what was
    staged. *)
Definition write_back (commit : bytes -> option string) (dst : store)
    (bucketName : bytes) (pairs : list kv) (subs : list subbucket)
    (log : list event) : store * list event * nat * bool :=
  match bucketName with
  | [] => (dst, log ++ [WriteError bucketName ErrBucketNameRequired], 0, false)
  | _ =>
      let b0 := match lookup bucketName dst with Some c => c | None => [] end in
      let '(b1, n1, evs1) := put_each true [bucketName] pairs b0 0 in
      let '(b2, n2, evs2) := write_subs bucketName subs b1 n1 in
      match commit bucketName with
      | Some e =>
          (dst, log ++ evs1 ++ evs2 ++ [WriteError bucketName e], n2, false)
      | None =>
          (upsert bucketName b2 dst,
           log ++ evs1 ++ evs2 ++ [BucketOK (List.length pairs) (List.length subs)],
           n2, true)
      end
  end.

(** ** Reading the results *)

Definition rb_dst (x : store * list event * nat * bool) : store :=
  fst (fst (fst x)).
Definition rb_log (x : store * list event * nat * bool) : list event :=
  snd (fst (fst x)).
Definition rb_keys (x : store * list event * nat * bool) : nat :=
  snd (fst x).
Definition rb_ok (x : store * list event * nat * bool) : bool :=
  snd x.

(** What [recoverBucket] does to the destination and to the counters,
    leaving out what it prints. *)
Definition rb_result (x : store * list event * nat * bool)
    : store * nat * bool :=
  (rb_dst x, rb_keys x, rb_ok x).

Definition ra_dst (x : store * list event * nat * nat) : store :=
  fst (fst (fst x)).
Definition ra_log (x : store * list event * nat * nat) : list event :=
  snd (fst (fst x)).
Definition ra_total (x : store * list event * nat * nat) : nat :=
  snd (fst x).
Definition ra_failed (x : store * list event * nat * nat) : nat :=
  snd x.

(** The names the listing of [main] collects. *)
Definition bucket_names (src : bucket) : list bytes :=
  map item_key (items_of src).

(** The enumeration of the direct entries of top-level bucket [n] panics. *)
Definition unwinds (src : bucket) (n : bytes) : bool :=
  match Bucket_Bucket src n with
  | Some b => match fin_of b with Unwound _ => true | _ => false end
  | None => false
  end.

(** The write transaction of bucket [n] returns no error: the name is
    accepted and the commit succeeds. *)
Definition commits (commit : bytes -> option string) (n : bytes) : bool :=
  match n with
  | [] => false
  | _ => match commit n with None => true | Some _ => false end
  end.

Definition bucket_succeeds (src : bucket) (commit : bytes -> option string)
    (n : bytes) : bool :=
  negb (unwinds src n) && commits commit n.

(** The ordinary error the read transaction of bucket [n] returns, if
    any: the bucket is not found, or [ForEach] returns an error. *)
Definition read_error (src : bucket) (n : bytes) : option string :=
  match Bucket_Bucket src n with
  | None => Some "bucket not found"
  | Some b => match fin_of b with Failed e => Some e | _ => None end
  end.

(** The events that report a fault or an error of a bucket. *)
Definition reports_fault (e : event) : bool :=
  match e with
  | PanicBucket _ _ _ | PanicSubBucket _ _ _ | ReadError _ _
  | WriteError _ _ => true
  | _ => false
  end.

(** ** Rewriting a source *)

Definition on_sub (f : bucket -> bucket) (it : item) : item :=
  match it with
  | Marker k (Some sb) => Marker k (Some (f sb))
  | _ => it
  end.

(** Apply [f] to every bucket nested directly in [b]. *)
Definition map_subs (f : bucket -> bucket) (b : bucket) : bucket :=
  MkBucket (map (on_sub f) (items_of b)) (fin_of b).

(** The same entries, with an enumeration that ends normally where it
    panicked. *)
Definition calm (sb : bucket) : bucket :=
  match fin_of sb with
  | Unwound _ => MkBucket (items_of sb) Done
  | _ => sb
  end.

(** The source in which no sub-bucket of a top-level bucket panics. *)
Definition calm_subs (src : bucket) : bucket := map_subs (map_subs calm) src.

Definition is_value (it : item) : bool :=
  match it with Value _ _ => true | Marker _ _ => false end.

(** The same bucket without its nested-bucket markers. *)
Definition strip (sb : bucket) : bucket :=
  MkBucket (filter is_value (items_of sb)) (fin_of sb).

(** The source cut below the first level of sub-buckets. *)
Definition prune (src : bucket) : bucket := map_subs (map_subs strip) src.

(** The source in which the top-level name [bn] opens as [h]. *)
Definition set_bucket (bn : bytes) (h : option bucket) (src : bucket) : bucket :=
  MkBucket
    (map (fun it =>
            match it with
            | Marker k _ => if bytes_eqb k bn then Marker k h else it
            | Value _ _ => it
            end) (items_of src))
    (fin_of src).

(** ** Counting *)

(** The number of key/value entries under a node, a bucket, a store. *)
Fixpoint node_entries (x : node) : nat :=
  match x with
  | Leaf _ => 1
  | Nested t =>
      (fix go (l : list (bytes * node)) : nat :=
         match l with
         | [] => 0
         | (_, y) :: r => node_entries y + go r
         end) t
  end.

Definition tree_entries (t : tree) : nat :=
  list_sum (map (fun p => node_entries (snd p)) t).

Definition store_entries (d : store) : nat :=
  list_sum (map (fun p => tree_entries (snd p)) d).

Definition is_wrote (e : event) : bool :=
  match e with Wrote _ _ _ => true | _ => false end.

(** The number of writes the destination accepted. *)
Definition wrote_count (log : list event) : nat :=
  List.length (filter is_wrote log).

Fixpoint nodupb (l : list bytes) : bool :=
  match l with
  | [] => true
  | x :: r => negb (existsb (bytes_eqb x) r) && nodupb r
  end.

(** No key occurs twice among the entries a bucket yields. *)
Definition distinct_keys (b : bucket) : bool :=
  nodupb (map item_key (items_of b)).

Definition subs_all (P : bucket -> bool) (b : bucket) : bool :=
  forallb (fun it =>
             match it with
             | Marker _ (Some sb) => P sb
             | _ => true
             end) (items_of b).

(** The same for a top-level bucket and its sub-buckets, and for a whole
    source: its bucket names, its buckets and their sub-buckets. *)
Definition unique_keys_bucket (b : bucket) : bool :=
  distinct_keys b && subs_all distinct_keys b.

Definition unique_keys (src : bucket) : bool :=
  distinct_keys src && subs_all unique_keys_bucket src.

(** ** Sources used as examples *)

(** The scenario of the specification: bucket "a" is healthy, bucket "b"
    panics after yielding one entry. *)
Definition bucket_a : bucket :=
  MkBucket [Value (B "k1") (B "v1"); Value (B "k2") (B "v2")] Done.

Definition bucket_b : bucket :=
  MkBucket [Value (B "k3") (B "v3")] (Unwound "page 10: multiple references").

Definition src_ab : bucket :=
  MkBucket [Marker (B "a") (Some bucket_a); Marker (B "b") (Some bucket_b)] Done.

Definition no_commit_error : bytes -> option string := fun _ => None.

Definition world_ab : world :=
  {| args := ["recover_bolt"; "portainer.db"; "recovered.db"];
     open_src := OK src_ab; open_dst := OK []; commit_error := no_commit_error |}.

(** A bucket with a healthy entry and a sub-bucket whose enumeration panics
    at once, next to a listed name that cannot be opened. *)
Definition bucket_settings : bucket :=
  MkBucket
    [Value (B "version") (B "1");
     Marker (B "ldap")
       (Some (MkBucket [] (Unwound "assertion failed: Page expected to be: 202")))]
    Done.

Definition src_settings : bucket :=
  MkBucket [Marker (B "settings") (Some bucket_settings);
            Marker (B "ghost") None] Done.

Definition world_settings : world :=
  {| args := ["recover_bolt"; "portainer.db"; "recovered.db"];
     open_src := OK src_settings; open_dst := OK [];
     commit_error := no_commit_error |}.

(** A sub-bucket that yields two entries and panics, between healthy
    neighbours. *)
Definition bucket_torn : bucket :=
  MkBucket [Value (B "x") (B "1"); Value (B "y") (B "2")] (Unwound "page 7").

Definition bucket_parent : bucket :=
  MkBucket
    [Value (B "p") (B "0");
     Marker (B "s1") (Some (MkBucket [Value (B "u") (B "3")] Done));
     Marker (B "s2") (Some bucket_torn);
     Value (B "q") (B "4");
     Marker (B "s3") (Some (MkBucket [Value (B "w") (B "5")] Done))]
    Done.

Definition src_parent : bucket :=
  MkBucket [Marker (B "parent") (Some bucket_parent)] Done.

(** A sub-bucket holding an entry the destination refuses (its key is
    empty) next to one it accepts; and a bucket holding the same two
    entries directly. *)
Definition bucket_by_id : bucket :=
  MkBucket [Value [] (B "lost"); Value (B "7") (B "stack")] Done.

Definition src_stacks : bucket :=
  MkBucket
    [Marker (B "stacks") (Some (MkBucket [Marker (B "by_id") (Some bucket_by_id)] Done));
     Marker (B "flat") (Some bucket_by_id)]
    Done.

(** A bucket and a sub-bucket that each hold a key with an empty value. *)
Definition src_flags : bucket :=
  MkBucket
    [Marker (B "flags")
       (Some (MkBucket
                [Value (B "a") (B "1");
                 Value (B "seen") [];
                 Marker (B "users")
                   (Some (MkBucket [Value (B "u1") []; Value (B "u2") (B "x")] Done));
                 Value (B "z") (B "2")]
                Done))]
    Done.

(** A bucket whose enumeration yields the same key twice. *)
Definition src_twice : bucket :=
  MkBucket
    [Marker (B "users")
       (Some (MkBucket [Value (B "1") (B "admin"); Value (B "1") (B "admin")] Done))]
    Done.

Definition world_twice : world :=
  {| args := ["recover_bolt"; "portainer.db"; "recovered.db"];
     open_src := OK src_twice; open_dst := OK [];
     commit_error := no_commit_error |}.

(** ** Reading the destination and the output *)

(** The contents of bucket [n] of a store, empty when there is none: what
    [CreateBucketIfNotExists] hands to the write loops. *)
Definition bucket_in (dst : store) (n : bytes) : tree :=
  match lookup n dst with Some c => c | None => [] end.

Definition child_in (t : tree) (ks : bytes) : tree :=
  match lookup ks t with Some (Nested c) => c | _ => [] end.

(** The bucket names announced by [Recovering] lines, in order. *)
Fixpoint announced (log : list event) : list bytes :=
  match log with
  | [] => []
  | Recovering n :: rest => n :: announced rest
  | _ :: rest => announced rest
  end.

(** How many pairs were staged for a bucket, its sub-buckets included. *)
Definition staged_total (pairs : list kv) (subs : list subbucket) : nat :=
  List.length pairs + list_sum (map (fun sb => List.length (data sb)) subs).

(** What the read phase of [recoverBucket] stages for bucket [n]. *)
Definition pairs_of (src : bucket) (n : bytes) : list kv :=
  match Bucket_Bucket src n with
  | Some b => values_of (items_of b)
  | None => []
  end.

Definition subs_of (src : bucket) (n : bytes) : list subbucket :=
  match Bucket_Bucket src n with
  | Some b => staged_subs b n (items_of b)
  | None => []
  end.

(** The same entries, with an enumeration that ends normally where
    [ForEach] returned an error. *)
Definition quiet (sb : bucket) : bucket :=
  match fin_of sb with
  | Failed _ => MkBucket (items_of sb) Done
  | _ => sb
  end.

(** ** The write loops, key by key *)

(** The bucket the loop over pairs leaves, without the counter and the
    output. *)
Definition puts (ps : list kv) (b : tree) : tree :=
  fst (fst (put_each false [] ps b 0)).

(** The value of the last pair of [ps] with key [k] that passes the
    checks of [Put]. *)
Fixpoint last_put (ps : list kv) (k : bytes) : option bytes :=
  match ps with
  | [] => None
  | p :: rest =>
      match last_put rest k with
      | Some v => Some v
      | None =>
          if bytes_eqb (key p) k
          then match put_check (key p) (value p) with
               | None => Some (value p)
               | Some _ => None
               end
          else None
      end
  end.

(** The pairs staged for sub-buckets named [k], in order, and whether
    there is such a sub-bucket. *)
Fixpoint data_for (subs : list subbucket) (k : bytes) : list kv :=
  match subs with
  | [] => []
  | sb :: rest =>
      if bytes_eqb (name sb) k then data sb ++ data_for rest k
      else data_for rest k
  end.

Definition mentions (subs : list subbucket) (k : bytes) : bool :=
  existsb (fun sb => bytes_eqb (name sb) k) subs.

(** What a key of a bucket holds after the loop over the pairs, and after
    the loop over the sub-buckets, given what it held before. *)
Definition after_pairs (ps : list kv) (k : bytes) (o : option node)
    : option node :=
  match o with
  | Some (Nested _) => o
  | _ => match last_put ps k with Some v => Some (Leaf v) | None => o end
  end.

Definition after_subs (subs : list subbucket) (k : bytes) (o : option node)
    : option node :=
  match k with
  | [] => o
  | _ =>
      match o with
      | Some (Leaf _) => o
      | Some (Nested c) => Some (Nested (puts (data_for subs k) c))
      | None =>
          if mentions subs k then Some (Nested (puts (data_for subs k) []))
          else None
      end
  end.

(** Two keys hold the same: the same value, or nested buckets with the
    same contents, or nothing. *)
Definition same_node (x y : option node) : Prop :=
  match x, y with
  | Some (Leaf v), Some (Leaf w) => v = w
  | Some (Nested c), Some (Nested c') => forall k, lookup k c = lookup k c'
  | None, None => True
  | _, _ => False
  end.

(** ** More sources used as examples *)

(** A bucket that yields a key twice with different values, and a
    sub-bucket that does the same; a destination that already holds an
    unrelated bucket. *)
Definition src_rewritten : bucket :=
  MkBucket
    [Marker (B "teams")
       (Some (MkBucket
                [Value (B "1") (B "old");
                 Marker (B "members")
                   (Some (MkBucket [Value (B "7") (B "a"); Value (B "7") (B "b")]
                            (Failed "tx closed")));
                 Value (B "1") (B "new")]
                Done))]
    Done.

Definition dst_used : store := [(B "kept", [(B "k", Leaf (B "v"))])].

Definition world_rewritten : world :=
  {| args := ["recover_bolt"; "portainer.db"; "recovered.db"];
     open_src := OK src_rewritten; open_dst := OK dst_used;
     commit_error := no_commit_error |}.

(** A source without damage: two buckets, one with a sub-bucket. *)
Definition src_healthy : bucket :=
  MkBucket
    [Marker (B "endpoints")
       (Some (MkBucket [Value (B "1") (B "local"); Value (B "2") (B "edge")] Done));
     Marker (B "settings")
       (Some (MkBucket
                [Value (B "version") (B "2");
                 Marker (B "ldap")
                   (Some (MkBucket [Value (B "url") (B "ldap://x")] Done))]
                Done))]
    Done.

Definition world_healthy : world :=
  {| args := ["recover_bolt"; "portainer.db"; "recovered.db"];
     open_src := OK src_healthy; open_dst := OK [];
     commit_error := no_commit_error |}.

(** * Properties *)

(** ** Byte slices and maps: basic facts *)

Lemma clone_id (s : bytes) : clone s = s.
Proof.
  unfold clone, copy, make.
  rewrite repeat_length, firstn_all, skipn_all2, app_nil_r.
  - reflexivity.
  - rewrite repeat_length. apply Nat.le_refl.
Qed.

Lemma bytes_eqb_eq (a b : bytes) : bytes_eqb a b = true <-> a = b.
Proof.
  revert b. induction a as [|x a IH]; intros [|y b]; simpl; split;
    try congruence; try reflexivity.
  - intros H. apply andb_true_iff in H. destruct H as [Hx Hab].
    apply byte_dec_bl in Hx. apply IH in Hab. congruence.
  - intros H. injection H as -> ->. apply andb_true_iff. split.
    + now apply byte_dec_lb.
    + now apply IH.
Qed.

Lemma bytes_eqb_refl (a : bytes) : bytes_eqb a a = true.
Proof. now apply bytes_eqb_eq. Qed.

Lemma bytes_eqb_neq (a b : bytes) : bytes_eqb a b = false <-> a <> b.
Proof.
  split.
  - intros H E. apply bytes_eqb_eq in E. congruence.
  - intros H. destruct (bytes_eqb a b) eqn:E; [|reflexivity].
    apply bytes_eqb_eq in E. contradiction.
Qed.

Lemma bytes_eq_dec (a b : bytes) : {a = b} + {a <> b}.
Proof.
  destruct (bytes_eqb a b) eqn:E.
  - left. now apply bytes_eqb_eq.
  - right. now apply bytes_eqb_neq.
Defined.

Ltac eqb_cases a b :=
  let E := fresh "E" in
  destruct (bytes_eqb a b) eqn:E;
  [apply bytes_eqb_eq in E | apply bytes_eqb_neq in E].

Section Maps.
Context {A : Type}.
Implicit Types (m : list (bytes * A)) (k : bytes) (a : A).

Lemma lookup_upsert_same k a m : lookup k (upsert k a m) = Some a.
Proof.
  induction m as [|[k' a'] m IH]; simpl.
  - now rewrite bytes_eqb_refl.
  - eqb_cases k' k; simpl.
    + now rewrite bytes_eqb_refl.
    + apply bytes_eqb_neq in E. now rewrite E.
Qed.

Lemma lookup_upsert_other k k' a m :
  k' <> k -> lookup k' (upsert k a m) = lookup k' m.
Proof.
  intros Hne. induction m as [|[k0 a0] m IH]; simpl.
  - assert (bytes_eqb k k' = false) as -> by (apply bytes_eqb_neq; congruence).
    reflexivity.
  - eqb_cases k0 k; simpl.
    + subst k0.
      assert (bytes_eqb k k' = false) as -> by (apply bytes_eqb_neq; congruence).
      reflexivity.
    + now rewrite IH.
Qed.

Lemma upsert_upsert k a a' m : upsert k a (upsert k a' m) = upsert k a m.
Proof.
  induction m as [|[k0 a0] m IH]; simpl.
  - now rewrite bytes_eqb_refl.
  - eqb_cases k0 k; simpl.
    + now rewrite bytes_eqb_refl.
    + apply bytes_eqb_neq in E. rewrite E. now rewrite IH.
Qed.

Lemma lookup_None_keys k m : lookup k m = None <-> ~ In k (map fst m).
Proof.
  induction m as [|[k0 a0] m IH]; simpl.
  - tauto.
  - eqb_cases k0 k.
    + split; [discriminate | tauto].
    + rewrite IH. tauto.
Qed.

Lemma upsert_fresh k a m : lookup k m = None -> upsert k a m = m ++ [(k, a)].
Proof.
  induction m as [|[k0 a0] m IH]; simpl; [reflexivity|].
  eqb_cases k0 k; [discriminate|].
  intros H. now rewrite IH.
Qed.

Lemma keys_upsert k a m x :
  In x (map fst (upsert k a m)) <-> x = k \/ In x (map fst m).
Proof.
  induction m as [|[k0 a0] m IH]; simpl.
  - intuition.
  - eqb_cases k0 k; simpl.
    + subst. intuition.
    + rewrite IH. intuition.
Qed.
End Maps.

(** ** The read phase, entry by entry *)

Lemma forEach_stage_sub_entry items fin pairs :
  forEach stage_sub_entry items fin pairs
  = (pairs ++ values_of items, outcome_of fin).
Proof.
  revert pairs. induction items as [|[k v|k sub] items IH]; intros pairs; simpl.
  - now rewrite app_nil_r.
  - rewrite IH, !clone_id, <- app_assoc. reflexivity.
  - apply IH.
Qed.

Lemma recoverSubBucket_eq items fin parentName :
  recoverSubBucket (MkBucket items fin) parentName
  = (values_of items,
     match fin with
     | Unwound r => [PanicSubBucket parentName r (List.length (values_of items))]
     | _ => []
     end).
Proof.
  unfold recoverSubBucket, Bucket_ForEach. simpl.
  rewrite forEach_stage_sub_entry. simpl. now destruct fin.
Qed.

Lemma forEach_stage_entry b bucketName items fin pairs subs log :
  forEach (stage_entry b bucketName) items fin (pairs, subs, log)
  = ((pairs ++ values_of items,
      subs ++ staged_subs b bucketName items,
      log ++ staged_log b bucketName items), outcome_of fin).
Proof.
  revert pairs subs log.
  induction items as [|[k v|k sub] items IH]; intros pairs subs log; simpl.
  - now rewrite !app_nil_r.
  - rewrite IH, !clone_id, <- app_assoc. reflexivity.
  - destruct (Bucket_Bucket b k) as [sb|].
    + destruct (recoverSubBucket sb bucketName) as [subData evs] eqn:E.
      rewrite IH, clone_id, <- !app_assoc. reflexivity.
    + apply IH.
Qed.

Lemma recoverBucket_eq src commit dst bucketName :
  recoverBucket src commit dst bucketName
  = match Bucket_Bucket src bucketName with
    | None =>
        write_back commit dst bucketName [] []
          [Recovering bucketName; ReadError bucketName "bucket not found"]
    | Some b =>
        let pairs := values_of (items_of b) in
        let subs := staged_subs b bucketName (items_of b) in
        let log := Recovering bucketName :: staged_log b bucketName (items_of b) in
        match fin_of b with
        | Unwound r => (dst, log ++ [PanicBucket bucketName r 0], 0, false)
        | Failed e =>
            write_back commit dst bucketName pairs subs
              (log ++ [ReadError bucketName e])
        | Done => write_back commit dst bucketName pairs subs log
        end
    end.
Proof.
  assert (W : forall pairs subs log,
    (let '(dst', (recovered, log'), writeErr) :=
       Update (commit bucketName) dst (write_bucket bucketName pairs subs) (0, log) in
     match writeErr with
     | Some e => (dst', log' ++ [WriteError bucketName e], recovered, false)
     | None =>
         (dst', log' ++ [BucketOK (List.length pairs) (List.length subs)],
          recovered, true)
     end) = write_back commit dst bucketName pairs subs log).
  { intros pairs subs log. unfold Update, write_bucket, write_back,
      Tx_CreateBucketIfNotExists.
    destruct bucketName as [|c n]; [reflexivity|].
    set (bn := c :: n).
    destruct (lookup bn dst) as [b0|] eqn:L.
    - destruct (put_each _ _ _ _ _) as [[b1 n1] evs1].
      destruct (write_subs _ _ _ _) as [[b2 n2] evs2].
      destruct (commit bn); now rewrite <- ?app_assoc.
    - destruct (put_each _ _ _ _ _) as [[b1 n1] evs1].
      destruct (write_subs _ _ _ _) as [[b2 n2] evs2].
      rewrite upsert_upsert.
      destruct (commit bn); now rewrite <- ?app_assoc. }
  unfold recoverBucket, View, read_bucket.
  destruct (Bucket_Bucket src bucketName) as [[items fin]|].
  - unfold Bucket_ForEach. simpl items_of. simpl fin_of.
    rewrite forEach_stage_entry. simpl app.
    destruct fin; simpl outcome_of; cbv iota beta.
    + rewrite app_nil_r. apply W.
    + apply W.
    + reflexivity.
  - simpl app. apply W.
Qed.

(** ** When a bucket counts as failed *)

Lemma write_back_ok commit dst n pairs subs log :
  rb_ok (write_back commit dst n pairs subs log) = commits commit n.
Proof.
  unfold write_back, commits.
  destruct n as [|c n]; [reflexivity|].
  destruct (put_each _ _ _ _ _) as [[b1 n1] evs1].
  destruct (write_subs _ _ _ _) as [[b2 n2] evs2].
  now destruct (commit (c :: n)).
Qed.

Lemma recoverBucket_ok src commit dst n :
  rb_ok (recoverBucket src commit dst n) = bucket_succeeds src commit n.
Proof.
  rewrite recoverBucket_eq. unfold bucket_succeeds, unwinds.
  destruct (Bucket_Bucket src n) as [b|]; simpl.
  - destruct (fin_of b); simpl; try apply write_back_ok. reflexivity.
  - apply write_back_ok.
Qed.

Lemma forEach_collect_name items fin names :
  forEach collect_name items fin names
  = (names ++ map item_key items, outcome_of fin).
Proof.
  revert names. induction items as [|it items IH]; intros names; simpl.
  - now rewrite app_nil_r.
  - rewrite IH, clone_id, <- app_assoc. reflexivity.
Qed.

Lemma recover_all_failed src commit names dst t f :
  snd (recover_all src commit names dst t f)
  = f + List.length
          (filter (fun n => negb (bucket_succeeds src commit n)) names).
Proof.
  revert dst t f. induction names as [|n names IH]; intros dst t f; simpl.
  - lia.
  - pose proof (recoverBucket_ok src commit dst n) as Hok.
    destruct (recoverBucket src commit dst n) as [[[d1 e1] k] ok].
    unfold rb_ok in Hok. simpl in Hok. subst ok.
    specialize (IH d1 (t + k)
      (if bucket_succeeds src commit n then f else S f)).
    destruct (recover_all src commit names d1 _ _) as [[[d' e'] t'] f'].
    simpl in *. rewrite IH.
    destruct (bucket_succeeds src commit n); simpl; lia.
Qed.

(** [main] once both stores are open. *)
Lemma main_eq w src dst :
  List.length (args w) = 3 -> open_src w = OK src -> open_dst w = OK dst ->
  main w
  = match fin_of src with
    | Unwound r =>
        {| exit_status := 2; output := [Crash r]; dest := Some dst |}
    | Failed e =>
        {| exit_status := 1; output := [FatalListBuckets e]; dest := Some dst |}
    | Done =>
        let '(dst', log, totalKeys, failedBuckets) :=
          recover_all src (commit_error w) (bucket_names src) dst 0 0 in
        {| exit_status := if (0 <? failedBuckets)%nat then 1 else 0;
           output :=
             Found (List.length (bucket_names src)) :: log ++
             [Summary totalKeys failedBuckets (List.length (bucket_names src))];
           dest := Some dst' |}
    end.
Proof.
  intros Ha Hs Hd. unfold main. rewrite Ha, Hs, Hd. simpl.
  unfold View, Bucket_ForEach. rewrite forEach_collect_name. simpl.
  unfold bucket_names. now destruct (fin_of src).
Qed.

(** C1: at the scenario of the specification (bucket "a" healthy, bucket
    "b" panics after yielding k3), the panic is caught at the boundary of
    [recoverBucket], but the function returns from its deferred handler
    without running the write transaction: nothing staged for "b" reaches
    the destination, no bucket "b" is created, and the summary counts 2
    keys where the specification expects 3. *)
Theorem panicked_bucket_is_not_written :
  recoverBucket src_ab no_commit_error [] (B "b")
  = ([], [Recovering (B "b");
          PanicBucket (B "b") "page 10: multiple references" 0], 0, false)
  /\ dest (main world_ab)
     = Some [(B "a", [(B "k1", Leaf (B "v1")); (B "k2", Leaf (B "v2"))])]
  /\ option_map (lookup (B "b")) (dest (main world_ab)) = Some None
  /\ In (Summary 2 1 2) (output (main world_ab))
  /\ exit_status (main world_ab) = 1.
Proof.
  repeat split; try reflexivity.
  vm_compute. intuition.
Qed.

(** Whenever the direct enumeration of a top-level bucket panics, the
    destination is left as it was and no key is counted. *)
Lemma recoverBucket_unwound src commit dst n b r :
  Bucket_Bucket src n = Some b -> fin_of b = Unwound r ->
  recoverBucket src commit dst n
  = (dst,
     Recovering n :: staged_log b n (items_of b) ++ [PanicBucket n r 0],
     0, false).
Proof.
  intros Hb Hf. rewrite recoverBucket_eq, Hb. simpl. now rewrite Hf.
Qed.

(** C2, as stated, fails: a fault recorded inside a sub-bucket and a listed
    bucket that cannot be opened both leave the exit status at 0. *)
Lemma exit_zero_despite_recorded_faults :
  exit_status (main world_settings) = 0
  /\ In (PanicSubBucket (B "settings")
           "assertion failed: Page expected to be: 202" 0)
        (output (main world_settings))
  /\ In (ReadError (B "ghost") "bucket not found")
        (output (main world_settings))
  /\ existsb reports_fault (output (main world_settings)) = true.
Proof.
  repeat split; try reflexivity; vm_compute; intuition.
Qed.

(** The exit status is 0 exactly when the program got its two arguments,
    both stores opened, the listing ended normally, and for every listed
    bucket the enumeration of its direct entries did not panic and its
    write transaction returned no error. *)
Lemma exit_status_zero_iff (w : world) :
  exit_status (main w) = 0 <->
  List.length (args w) = 3 /\
  exists src dst,
    open_src w = OK src /\ open_dst w = OK dst /\ fin_of src = Done /\
    forall n, In n (bucket_names src) ->
              bucket_succeeds src (commit_error w) n = true.
Proof.
  split.
  - intros H. unfold main in H.
    destruct (List.length (args w) =? 3)%nat eqn:Ha; [|discriminate].
    apply Nat.eqb_eq in Ha. split; [exact Ha|].
    destruct (open_src w) as [src|] eqn:Hs; [|discriminate].
    destruct (open_dst w) as [dst|] eqn:Hd; [|discriminate].
    exists src, dst.
    assert (M := main_eq w Ha Hs Hd).
    unfold main in M. rewrite Hs, Hd in M.
    replace (List.length (args w) =? 3)%nat with true in M
      by (symmetry; now apply Nat.eqb_eq).
    simpl negb in *. cbv iota in *. rewrite M in H. clear M.
    destruct (fin_of src) eqn:Hf; try discriminate.
    repeat split; try reflexivity.
    pose proof (recover_all_failed src (commit_error w) (bucket_names src) dst 0 0) as F.
    destruct (recover_all _ _ _ _ _ _) as [[[d' lg] t] f]. simpl in *.
    destruct (0 <? f)%nat eqn:Hlt; [discriminate|].
    apply Nat.ltb_ge in Hlt.
    intros n Hn.
    destruct (bucket_succeeds src (commit_error w) n) eqn:E; [reflexivity|].
    assert (In n (filter (fun n => negb (bucket_succeeds src (commit_error w) n))
                         (bucket_names src))) as Hin.
    { apply filter_In. split; [exact Hn|]. now rewrite E. }
    destruct (filter _ _); [contradiction|]. simpl in F. lia.
  - intros (Ha & src & dst & Hs & Hd & Hf & Hall).
    rewrite (main_eq w Ha Hs Hd), Hf.
    pose proof (recover_all_failed src (commit_error w) (bucket_names src) dst 0 0) as F.
    destruct (recover_all _ _ _ _ _ _) as [[[d' lg] t] f]. simpl in *.
    assert (filter (fun n => negb (bucket_succeeds src (commit_error w) n))
                   (bucket_names src) = []) as Hnil.
    { clear F. induction (bucket_names src) as [|n l IH]; [reflexivity|].
      simpl. rewrite (Hall n (or_introl eq_refl)). simpl.
      apply IH. intros m Hm. apply Hall. now right. }
    rewrite Hnil in F. simpl in F. subst f. reflexivity.
Qed.

Lemma main_exit_status w src dst :
  List.length (args w) = 3 -> open_src w = OK src -> open_dst w = OK dst ->
  exit_status (main w)
  = match fin_of src with
    | Unwound _ => 2
    | Failed _ => 1
    | Done =>
        match filter (fun n => negb (bucket_succeeds src (commit_error w) n))
                     (bucket_names src) with
        | [] => 0
        | _ :: _ => 1
        end
    end.
Proof.
  intros Ha Hs Hd. rewrite (main_eq w Ha Hs Hd).
  destruct (fin_of src); try reflexivity.
  pose proof (recover_all_failed src (commit_error w) (bucket_names src) dst 0 0) as F.
  destruct (recover_all _ _ _ _ _ _) as [[[d' lg] t] f]. simpl in *. subst f.
  now destruct (filter _ _).
Qed.

(** C2, amended: the exit status is 0 exactly when the program got its
    two arguments, both stores opened, the listing ended normally, and
    for every listed bucket the enumeration of its direct entries did not
    panic and its write transaction returned no error; faults caught
    inside a sub-bucket and ordinary read errors play no part.  It is 1
    exactly when the arguments are not two, a store does not open, the
    listing returns an error, or some listed bucket fails in that sense;
    and 2 exactly when both stores opened and the listing itself
    panics. *)
Theorem exit_status_characterised (w : world) :
  (exit_status (main w) = 0 <->
   List.length (args w) = 3 /\
   exists src dst,
     open_src w = OK src /\ open_dst w = OK dst /\ fin_of src = Done /\
     forall n, In n (bucket_names src) ->
               bucket_succeeds src (commit_error w) n = true)
  /\ (exit_status (main w) = 1 <->
      List.length (args w) <> 3
      \/ (exists e, open_src w = Err e)
      \/ (exists e, open_dst w = Err e)
      \/ (exists src e, open_src w = OK src /\ fin_of src = Failed e)
      \/ (exists src n,
            open_src w = OK src /\ fin_of src = Done
            /\ In n (bucket_names src)
            /\ bucket_succeeds src (commit_error w) n = false))
  /\ (exit_status (main w) = 2 <->
      List.length (args w) = 3 /\
      exists src dst r,
        open_src w = OK src /\ open_dst w = OK dst /\ fin_of src = Unwound r).
Proof.
  split; [apply exit_status_zero_iff|].
  destruct (Nat.eq_dec (List.length (args w)) 3) as [Ha|Ha].
  - destruct (open_src w) as [src|e] eqn:Hs.
    + destruct (open_dst w) as [dst|e] eqn:Hd.
      * rewrite (main_exit_status w Ha Hs Hd).
        destruct (fin_of src) as [|e|r] eqn:Hf.
        -- destruct (filter _ _) as [|x l] eqn:HL.
           ++ split; split; try discriminate.
              ** intros [H|[[e H]|[[e H]|[(s & e & H & H')|(s & n & H & _ & Hn & Hb)]]]];
                   try congruence.
                 injection H as <-.
                 assert (In n (filter (fun n => negb (bucket_succeeds src (commit_error w) n))
                                 (bucket_names src))) as Hin
                   by (apply filter_In; split; [exact Hn|now rewrite Hb]).
                 rewrite HL in Hin. contradiction.
              ** intros (_ & s & d & r & H & _ & H'). congruence.
           ++ assert (In x (filter (fun n => negb (bucket_succeeds src (commit_error w) n))
                              (bucket_names src))) as Hin
                by (rewrite HL; now left).
              apply filter_In in Hin. destruct Hin as [Hn Hb].
              split; split; try discriminate; try reflexivity.
              ** intros _. right. right. right. right. exists src, x.
                 repeat split; auto.
                 now destruct (bucket_succeeds src (commit_error w) x).
              ** intros (_ & s & d & r & H & _ & H'). congruence.
        -- split; split; try discriminate; try reflexivity.
           ++ intros _. right. right. right. left. now exists src, e.
           ++ intros (_ & s & d & r & H & _ & H'). congruence.
        -- split; split; try discriminate; try reflexivity.
           ++ intros [H|[[e H]|[[e H]|[(s & e & H & H')|(s & n & H & H' & _)]]]];
                congruence.
           ++ intros _. split; [exact Ha|]. now exists src, dst, r.
      * assert (E : exit_status (main w) = 1)
          by (unfold main; now rewrite Ha, Hs, Hd).
        rewrite E. split; split; try discriminate; try reflexivity.
        -- intros _. right. right. left. now exists e.
        -- intros (_ & s & d & r & _ & H & _). congruence.
    + assert (E : exit_status (main w) = 1)
        by (unfold main; now rewrite Ha, Hs).
      rewrite E. split; split; try discriminate; try reflexivity.
      * intros _. right. left. now exists e.
      * intros (_ & s & d & r & H & _). congruence.
  - assert (E : exit_status (main w) = 1).
    { unfold main. pose proof Ha as Ha'. apply Nat.eqb_neq in Ha'. now rewrite Ha'. }
    rewrite E. split; split; try discriminate; try reflexivity.
    + intros _. now left.
    + intros [H _]. contradiction.
Qed.

(** ** Faults inside sub-buckets *)

Lemma values_of_app l1 l2 : values_of (l1 ++ l2) = values_of l1 ++ values_of l2.
Proof.
  induction l1 as [|[k v|k h] l1 IH]; simpl; [reflexivity| |exact IH].
  now rewrite IH.
Qed.

Lemma staged_subs_app b n l1 l2 :
  staged_subs b n (l1 ++ l2) = staged_subs b n l1 ++ staged_subs b n l2.
Proof.
  induction l1 as [|[k v|k h] l1 IH]; simpl; [reflexivity|exact IH|].
  destruct (Bucket_Bucket b k); [|exact IH]. simpl. now rewrite IH.
Qed.

Lemma staged_log_app b n l1 l2 :
  staged_log b n (l1 ++ l2) = staged_log b n l1 ++ staged_log b n l2.
Proof.
  induction l1 as [|[k v|k h] l1 IH]; simpl; [reflexivity|exact IH|].
  destruct (Bucket_Bucket b k); [|exact IH]. now rewrite IH, app_assoc.
Qed.

Lemma find_bucket_middle pre k h post :
  ~ In k (map item_key pre) ->
  find_bucket (pre ++ Marker k h :: post) k = h.
Proof.
  induction pre as [|it pre IH]; simpl; intros Hk.
  - now rewrite bytes_eqb_refl.
  - eqb_cases (item_key it) k; [tauto|]. apply IH. tauto.
Qed.

Lemma write_back_log commit dst n pairs subs log :
  write_back commit dst n pairs subs log
  = (rb_dst (write_back commit dst n pairs subs []),
     log ++ rb_log (write_back commit dst n pairs subs []),
     rb_keys (write_back commit dst n pairs subs []),
     rb_ok (write_back commit dst n pairs subs [])).
Proof.
  unfold write_back. destruct n as [|c n]; [reflexivity|].
  destruct (put_each _ _ _ _ _) as [[b1 n1] evs1].
  destruct (write_subs _ _ _ _) as [[b2 n2] evs2].
  now destruct (commit (c :: n)).
Qed.

Lemma write_back_result commit dst n pairs subs log log' :
  rb_result (write_back commit dst n pairs subs log)
  = rb_result (write_back commit dst n pairs subs log').
Proof.
  rewrite (write_back_log _ _ _ _ _ log), (write_back_log _ _ _ _ _ log').
  reflexivity.
Qed.

Lemma find_bucket_on_sub (f : bucket -> bucket) items k :
  find_bucket (map (on_sub f) items) k = option_map f (find_bucket items k).
Proof.
  induction items as [|[k0 v|k0 [sb|]] items IH]; simpl; [reflexivity| | |];
    destruct (bytes_eqb k0 k); auto.
Qed.

Lemma Bucket_Bucket_map_subs (f : bucket -> bucket) b k :
  Bucket_Bucket (map_subs f b) k = option_map f (Bucket_Bucket b k).
Proof. apply find_bucket_on_sub. Qed.

Lemma values_of_on_sub (f : bucket -> bucket) items : values_of (map (on_sub f) items) = values_of items.
Proof.
  induction items as [|[k v|k [sb|]] items IH]; simpl; auto. now rewrite IH.
Qed.

Lemma bucket_names_map_subs (f : bucket -> bucket) b : bucket_names (map_subs f b) = bucket_names b.
Proof.
  unfold bucket_names, map_subs. simpl. rewrite map_map.
  apply map_ext. now intros [k v|k [sb|]].
Qed.

Section MapSubs.
Variable f : bucket -> bucket.

(** [f] keeps the pairs a sub-bucket yields. *)
Hypothesis f_pairs : forall sb p,
  fst (recoverSubBucket (f sb) p) = fst (recoverSubBucket sb p).

Lemma staged_subs_map_subs b n items :
  staged_subs (map_subs f b) n (map (on_sub f) items) = staged_subs b n items.
Proof.
  induction items as [|[k v|k h] items IH]; simpl; [reflexivity|exact IH|].
  assert (staged_subs (map_subs f b) n
            (match h with
             | Some sb => Marker k (Some (f sb))
             | None => Marker k None
             end :: map (on_sub f) items)
          = match Bucket_Bucket b k with
            | Some sub =>
                {| name := k; data := fst (recoverSubBucket sub n) |}
                  :: staged_subs b n items
            | None => staged_subs b n items
            end) as E.
  { destruct h; simpl; rewrite Bucket_Bucket_map_subs;
      destruct (Bucket_Bucket b k); simpl; now rewrite ?f_pairs, IH. }
  destruct h; exact E.
Qed.

Lemma recoverBucket_map_subs_result src commit dst n :
  rb_result (recoverBucket (map_subs (map_subs f) src) commit dst n)
  = rb_result (recoverBucket src commit dst n).
Proof.
  rewrite !recoverBucket_eq, Bucket_Bucket_map_subs.
  destruct (Bucket_Bucket src n) as [b|]; simpl option_map; cbv iota;
    [|reflexivity].
  cbv zeta. simpl items_of. simpl fin_of.
  rewrite values_of_on_sub, staged_subs_map_subs.
  destruct (fin_of b); try apply write_back_result. reflexivity.
Qed.

(** [f] keeps what the recovery of a sub-bucket prints as well. *)
Hypothesis f_log : forall sb p,
  snd (recoverSubBucket (f sb) p) = snd (recoverSubBucket sb p).

Lemma staged_log_map_subs b n items :
  staged_log (map_subs f b) n (map (on_sub f) items) = staged_log b n items.
Proof.
  induction items as [|[k v|k h] items IH]; simpl; [reflexivity|exact IH|].
  assert (staged_log (map_subs f b) n
            (match h with
             | Some sb => Marker k (Some (f sb))
             | None => Marker k None
             end :: map (on_sub f) items)
          = match Bucket_Bucket b k with
            | Some sub => snd (recoverSubBucket sub n) ++ staged_log b n items
            | None => staged_log b n items
            end) as E.
  { destruct h; simpl; rewrite Bucket_Bucket_map_subs;
      destruct (Bucket_Bucket b k); simpl; now rewrite ?f_log, IH. }
  destruct h; exact E.
Qed.

Lemma recoverBucket_map_subs src commit dst n :
  recoverBucket (map_subs (map_subs f) src) commit dst n
  = recoverBucket src commit dst n.
Proof.
  rewrite !recoverBucket_eq, Bucket_Bucket_map_subs.
  destruct (Bucket_Bucket src n) as [b|]; simpl option_map; cbv iota;
    [|reflexivity].
  cbv zeta. simpl items_of. simpl fin_of.
  now rewrite values_of_on_sub, staged_subs_map_subs, staged_log_map_subs.
Qed.

Lemma recover_all_map_subs src commit names dst t k :
  recover_all (map_subs (map_subs f) src) commit names dst t k
  = recover_all src commit names dst t k.
Proof.
  revert dst t k. induction names as [|n names IH]; intros dst t k; simpl;
    [reflexivity|].
  rewrite recoverBucket_map_subs.
  destruct (recoverBucket src commit dst n) as [[[d1 e1] keys] ok].
  now rewrite IH.
Qed.

Lemma main_map_subs a src d c :
  main {| args := a; open_src := OK (map_subs (map_subs f) src);
          open_dst := d; commit_error := c |}
  = main {| args := a; open_src := OK src; open_dst := d; commit_error := c |}.
Proof.
  unfold main. simpl.
  destruct (List.length a =? 3)%nat; simpl; [|reflexivity].
  destruct d as [dst|e]; [|reflexivity].
  unfold View, Bucket_ForEach. rewrite !forEach_collect_name. simpl.
  fold (bucket_names (map_subs f src)). fold (bucket_names src).
  rewrite map_map.
  replace (map (fun x => item_key (on_sub (map_subs f) x)) (items_of src))
    with (bucket_names src)
    by (apply map_ext; now intros [k v|k [sb|]]).
  destruct (fin_of src); simpl; try reflexivity.
  now rewrite recover_all_map_subs.
Qed.
End MapSubs.

Lemma calm_pairs sb p :
  fst (recoverSubBucket (calm sb) p) = fst (recoverSubBucket sb p).
Proof.
  destruct sb as [items fin]. unfold calm. simpl.
  destruct fin; rewrite ?recoverSubBucket_eq; reflexivity.
Qed.

(** C3: a sub-bucket whose enumeration panics keeps exactly the value
    entries it yielded; the enumeration of its parent goes on, so the
    parent's own entries and its other sub-buckets, before and after, are
    staged in full; and the recovery of any top-level bucket gives the same
    destination, key count and success flag as on the source in which no
    sub-bucket panics. *)
Theorem sub_bucket_fault_is_contained
    (src : bucket) (commit : bytes -> option string) (dst : store)
    (b : bucket) (n k : bytes) (pre post es : list item) (r : string) :
  recoverSubBucket (MkBucket es (Unwound r)) n
  = (values_of es, [PanicSubBucket n r (List.length (values_of es))])
  /\ (items_of b = pre ++ Marker k (Some (MkBucket es (Unwound r))) :: post ->
      ~ In k (map item_key pre) ->
      Bucket_ForEach b (stage_entry b n) ([], [], [])
      = ((values_of pre ++ values_of post,
          staged_subs b n pre
            ++ {| name := k; data := values_of es |} :: staged_subs b n post,
          staged_log b n pre
            ++ PanicSubBucket n r (List.length (values_of es))
            :: staged_log b n post),
         outcome_of (fin_of b)))
  /\ rb_result (recoverBucket src commit dst n)
     = rb_result (recoverBucket (calm_subs src) commit dst n).
Proof.
  split; [apply recoverSubBucket_eq|]. split.
  - intros Hitems Hk.
    unfold Bucket_ForEach. rewrite forEach_stage_entry. simpl app.
    rewrite Hitems at 1 2 3.
    rewrite values_of_app, staged_subs_app, staged_log_app. simpl.
    assert (Bucket_Bucket b k = Some (MkBucket es (Unwound r))) as ->.
    { unfold Bucket_Bucket. rewrite Hitems. now apply find_bucket_middle. }
    rewrite recoverSubBucket_eq. reflexivity.
  - symmetry. apply recoverBucket_map_subs_result. apply calm_pairs.
Qed.

Lemma sub_bucket_fault_is_contained_witness :
  Bucket_ForEach bucket_parent (stage_entry bucket_parent (B "parent")) ([], [], [])
  = (([{| key := B "p"; value := B "0" |}; {| key := B "q"; value := B "4" |}],
      [{| name := B "s1"; data := [{| key := B "u"; value := B "3" |}] |};
       {| name := B "s2";
          data := [{| key := B "x"; value := B "1" |};
                   {| key := B "y"; value := B "2" |}] |};
       {| name := B "s3"; data := [{| key := B "w"; value := B "5" |}] |}],
      [PanicSubBucket (B "parent") "page 7" 2]),
     Returned None)
  /\ rb_result (recoverBucket src_parent no_commit_error [] (B "parent"))
     = rb_result (recoverBucket (calm_subs src_parent) no_commit_error []
                    (B "parent")).
Proof.
  destruct (sub_bucket_fault_is_contained
    src_parent no_commit_error [] bucket_parent (B "parent") (B "s2")
    [Value (B "p") (B "0");
     Marker (B "s1") (Some (MkBucket [Value (B "u") (B "3")] Done))]
    [Value (B "q") (B "4");
     Marker (B "s3") (Some (MkBucket [Value (B "w") (B "5")] Done))]
    [Value (B "x") (B "1"); Value (B "y") (B "2")] "page 7")
    as (_ & Hstage & Hsame).
  split; [|exact Hsame].
  apply Hstage.
  - reflexivity.
  - simpl. intros [H|[H|[]]]; discriminate H.
Defined.

Lemma strip_same sb p : recoverSubBucket (strip sb) p = recoverSubBucket sb p.
Proof.
  destruct sb as [items fin]. unfold strip. simpl.
  rewrite !recoverSubBucket_eq.
  assert (values_of (filter is_value items) = values_of items) as ->;
    [|reflexivity].
  induction items as [|[k v|k h] items IH]; simpl; auto. now rewrite IH.
Qed.

(** C5: inside a sub-bucket a nested-bucket marker is passed over: the
    recovery of the sub-bucket yields the same pairs and prints the same
    (so no fault is reported) as if the marker were not there, whatever lies
    under it; and a whole run gives the same destination, output and exit
    status as on the source cut below the first level of sub-buckets. *)
Theorem deeper_buckets_are_skipped
    (pre post : list item) (k : bytes) (h : option bucket) (fin : ending)
    (parentName : bytes) (a : list string) (src : bucket)
    (d : result store) (c : bytes -> option string) :
  recoverSubBucket (MkBucket (pre ++ Marker k h :: post) fin) parentName
  = recoverSubBucket (MkBucket (pre ++ post) fin) parentName
  /\ fst (recoverSubBucket (MkBucket (pre ++ Marker k h :: post) fin) parentName)
     = values_of pre ++ values_of post
  /\ main {| args := a; open_src := OK src; open_dst := d; commit_error := c |}
     = main {| args := a; open_src := OK (prune src); open_dst := d;
               commit_error := c |}.
Proof.
  rewrite !recoverSubBucket_eq, !values_of_app. simpl.
  split; [now destruct fin|]. split; [reflexivity|].
  symmetry. apply main_map_subs; intros sb p; now rewrite strip_same.
Qed.

(** ** One bucket at a time: what a recovery touches *)

Lemma recoverBucket_ext src1 src2 commit dst n :
  Bucket_Bucket src1 n = Bucket_Bucket src2 n ->
  recoverBucket src1 commit dst n = recoverBucket src2 commit dst n.
Proof. intros H. now rewrite !recoverBucket_eq, H. Qed.

Lemma write_back_frame commit dst n pairs subs log m :
  m <> n ->
  lookup m (rb_dst (write_back commit dst n pairs subs log)) = lookup m dst.
Proof.
  intros Hm. unfold write_back. destruct n as [|c n]; [reflexivity|].
  destruct (put_each _ _ _ _ _) as [[b1 n1] evs1].
  destruct (write_subs _ _ _ _) as [[b2 n2] evs2].
  destruct (commit (c :: n)); [reflexivity|].
  unfold rb_dst. simpl fst. now apply lookup_upsert_other.
Qed.

Lemma write_back_local commit d1 d2 n pairs subs log :
  lookup n d1 = lookup n d2 ->
  lookup n (rb_dst (write_back commit d1 n pairs subs log))
  = lookup n (rb_dst (write_back commit d2 n pairs subs log)).
Proof.
  intros H. unfold write_back. destruct n as [|c n]; [exact H|].
  rewrite H.
  destruct (put_each _ _ _ _ _) as [[b1 n1] evs1].
  destruct (write_subs _ _ _ _) as [[b2 n2] evs2].
  destruct (commit (c :: n)); [exact H|].
  unfold rb_dst. simpl fst. now rewrite !lookup_upsert_same.
Qed.

Lemma recoverBucket_frame src commit dst n m :
  m <> n -> lookup m (rb_dst (recoverBucket src commit dst n)) = lookup m dst.
Proof.
  intros Hm. rewrite recoverBucket_eq.
  destruct (Bucket_Bucket src n) as [b|]; [|now apply write_back_frame].
  cbv zeta. destruct (fin_of b); try now apply write_back_frame. reflexivity.
Qed.

Lemma recoverBucket_local src commit d1 d2 n :
  lookup n d1 = lookup n d2 ->
  lookup n (rb_dst (recoverBucket src commit d1 n))
  = lookup n (rb_dst (recoverBucket src commit d2 n)).
Proof.
  intros H. rewrite !recoverBucket_eq.
  destruct (Bucket_Bucket src n) as [b|]; [|now apply write_back_local].
  cbv zeta. destruct (fin_of b); try now apply write_back_local. exact H.
Qed.

Lemma write_back_keeps_log commit dst n pairs subs log e :
  In e log -> In e (rb_log (write_back commit dst n pairs subs log)).
Proof.
  intros H. rewrite write_back_log. unfold rb_log at 1. simpl.
  apply in_or_app. now left.
Qed.

Lemma recoverBucket_announces src commit dst n :
  In (Recovering n) (rb_log (recoverBucket src commit dst n)).
Proof.
  rewrite recoverBucket_eq.
  destruct (Bucket_Bucket src n) as [b|].
  - cbv zeta. destruct (fin_of b).
    + apply write_back_keeps_log. now left.
    + apply write_back_keeps_log. now left.
    + now left.
  - apply write_back_keeps_log. now left.
Qed.

Lemma recover_all_visits src commit names dst t f n :
  In n names -> In (Recovering n) (ra_log (recover_all src commit names dst t f)).
Proof.
  revert dst t f. induction names as [|m names IH]; intros dst t f Hn;
    [contradiction|].
  simpl. pose proof (recoverBucket_announces src commit dst m) as Hm.
  destruct (recoverBucket src commit dst m) as [[[d1 e1] k] ok].
  specialize (IH d1 (t + k) (if ok then f else S f)).
  destruct (recover_all src commit names d1 _ _) as [[[d' e'] t'] f'].
  unfold ra_log, rb_log in *. simpl in *. apply in_or_app.
  destruct Hn as [->|Hn]; [now left|right; now apply IH].
Qed.

Section Siblings.
Variables (src1 src2 : bucket) (commit : bytes -> option string) (bn : bytes).

(** The two sources open every name but [bn] alike. *)
Hypothesis same_elsewhere :
  forall m, m <> bn -> Bucket_Bucket src1 m = Bucket_Bucket src2 m.

Lemma recover_all_siblings names d1 d2 t1 f1 t2 f2 :
  (forall m, m <> bn -> lookup m d1 = lookup m d2) ->
  forall m, m <> bn ->
    lookup m (ra_dst (recover_all src1 commit names d1 t1 f1))
    = lookup m (ra_dst (recover_all src2 commit names d2 t2 f2)).
Proof.
  revert d1 d2 t1 f1 t2 f2.
  induction names as [|n names IH]; intros d1 d2 t1 f1 t2 f2 Hd; [exact Hd|].
  simpl.
  assert (forall m, m <> bn ->
            lookup m (rb_dst (recoverBucket src1 commit d1 n))
            = lookup m (rb_dst (recoverBucket src2 commit d2 n))) as Hstep.
  { intros m Hm. destruct (bytes_eq_dec m n) as [->|Hmn].
    - rewrite (@recoverBucket_ext src1 src2 commit d1 n (same_elsewhere Hm)).
      apply recoverBucket_local. now apply Hd.
    - rewrite !recoverBucket_frame by assumption. now apply Hd. }
  destruct (recoverBucket src1 commit d1 n) as [[[e1 l1] k1] ok1].
  destruct (recoverBucket src2 commit d2 n) as [[[e2 l2] k2] ok2].
  specialize (IH e1 e2 (t1 + k1) (if ok1 then f1 else S f1)
                (t2 + k2) (if ok2 then f2 else S f2) Hstep).
  destruct (recover_all src1 commit names e1 _ _) as [[[x1 y1] z1] w1].
  destruct (recover_all src2 commit names e2 _ _) as [[[x2 y2] z2] w2].
  exact IH.
Qed.
End Siblings.

Lemma Bucket_Bucket_set_bucket bn h src m :
  m <> bn -> Bucket_Bucket (set_bucket bn h src) m = Bucket_Bucket src m.
Proof.
  intros Hm. unfold Bucket_Bucket, set_bucket. simpl.
  induction (items_of src) as [|[k v|k sub] items IH]; simpl; [reflexivity| |].
  - now rewrite IH.
  - eqb_cases k bn; simpl.
    + subst k. assert (bytes_eqb bn m = false) as ->
        by (apply bytes_eqb_neq; congruence). exact IH.
    + now rewrite IH.
Qed.

Lemma bucket_names_set_bucket bn h src :
  bucket_names (set_bucket bn h src) = bucket_names src.
Proof.
  unfold bucket_names, set_bucket. simpl. rewrite map_map. apply map_ext.
  intros [k v|k sub]; [reflexivity|]. now destruct (bytes_eqb k bn).
Qed.

(** C4: whatever top-level bucket [bn] holds and however its recovery
    ends, every other listed bucket [n] is visited and ends up in the
    destination with the same contents as in the run on the source where
    [bn] opens as anything else [h] (a healthy bucket, say). *)
Theorem sibling_buckets_unaffected
    (a : list string) (src : bucket) (dst : store)
    (c : bytes -> option string) (bn : bytes) (h : option bucket) (n : bytes) :
  List.length a = 3 -> fin_of src = Done -> In n (bucket_names src) ->
  n <> bn ->
  let w := {| args := a; open_src := OK src; open_dst := OK dst;
              commit_error := c |} in
  let w' := {| args := a; open_src := OK (set_bucket bn h src);
               open_dst := OK dst; commit_error := c |} in
  exists d d',
    dest (main w) = Some d /\ dest (main w') = Some d'
    /\ lookup n d = lookup n d'
    /\ In (Recovering n) (output (main w))
    /\ In (Recovering n) (output (main w')).
Proof.
  intros Ha Hf Hn Hne w w'.
  rewrite (main_eq w (src := src) (dst := dst) Ha eq_refl eq_refl).
  rewrite (main_eq w' (src := set_bucket bn h src) (dst := dst) Ha eq_refl eq_refl).
  simpl commit_error. rewrite bucket_names_set_bucket.
  replace (fin_of (set_bucket bn h src)) with (fin_of src) by reflexivity.
  rewrite Hf.
  pose proof (@recover_all_siblings src (set_bucket bn h src) c bn
    (fun m Hm => eq_sym (Bucket_Bucket_set_bucket h src Hm))
    (bucket_names src) dst dst 0 0 0 0 (fun m _ => eq_refl) n Hne) as Hd.
  pose proof (recover_all_visits src c (bucket_names src) dst 0 0 n Hn) as V1.
  pose proof (recover_all_visits (set_bucket bn h src) c (bucket_names src)
                dst 0 0 n Hn) as V2.
  destruct (recover_all src c _ _ _ _) as [[[d1 l1] t1] f1].
  destruct (recover_all (set_bucket bn h src) c _ _ _ _) as [[[d2 l2] t2] f2].
  unfold ra_dst, ra_log in *. simpl in *.
  exists d1, d2. repeat split; try assumption.
  - right. apply in_or_app. now left.
  - right. apply in_or_app. now left.
Qed.

Lemma sibling_buckets_unaffected_witness :
  exists d d',
    dest (main world_ab) = Some d
    /\ dest (main {| args := args world_ab;
                     open_src := OK (set_bucket (B "b")
                                       (Some (MkBucket [Value (B "k3") (B "v3")] Done))
                                       src_ab);
                     open_dst := OK []; commit_error := no_commit_error |})
       = Some d'
    /\ lookup (B "a") d = lookup (B "a") d'
    /\ In (Recovering (B "a")) (output (main world_ab))
    /\ In (Recovering (B "a")) (output (main
         {| args := args world_ab;
            open_src := OK (set_bucket (B "b")
                              (Some (MkBucket [Value (B "k3") (B "v3")] Done))
                              src_ab);
            open_dst := OK []; commit_error := no_commit_error |})).
Proof.
  apply (@sibling_buckets_unaffected (args world_ab) src_ab []
           no_commit_error (B "b")
           (Some (MkBucket [Value (B "k3") (B "v3")] Done)) (B "a")).
  - reflexivity.
  - reflexivity.
  - simpl. left. reflexivity.
  - discriminate.
Defined.

(** ** Ordinary read errors *)

(** C9: when the read transaction of a listed bucket returns an ordinary
    error (bucket not found, or an error from the enumeration), the error
    is printed and the write transaction still runs on what was staged; if
    that transaction succeeds, the bucket exists in the destination,
    [recoverBucket] answers [ok = true], and the loop of [main] passes its
    count of failed buckets on unchanged. *)
Theorem read_error_does_not_fail_bucket
    (src : bucket) (commit : bytes -> option string) (dst : store)
    (n : bytes) (e : string) :
  read_error src n = Some e -> n <> [] -> commit n = None ->
  (exists pairs subs log,
     recoverBucket src commit dst n = write_back commit dst n pairs subs log)
  /\ In (ReadError n e) (rb_log (recoverBucket src commit dst n))
  /\ (exists b, lookup n (rb_dst (recoverBucket src commit dst n)) = Some b)
  /\ rb_ok (recoverBucket src commit dst n) = true
  /\ forall names t f,
       ra_failed (recover_all src commit (n :: names) dst t f)
       = ra_failed (recover_all src commit names
                      (rb_dst (recoverBucket src commit dst n))
                      (t + rb_keys (recoverBucket src commit dst n)) f).
Proof.
  intros He Hn Hc.
  assert (Hok : rb_ok (recoverBucket src commit dst n) = true).
  { rewrite recoverBucket_ok. unfold bucket_succeeds, unwinds, commits.
    unfold read_error in He. rewrite Hc.
    destruct (Bucket_Bucket src n) as [b|].
    - destruct (fin_of b); try discriminate. now destruct n.
    - now destruct n. }
  assert (Hw : exists pairs subs log,
    recoverBucket src commit dst n = write_back commit dst n pairs subs log
    /\ In (ReadError n e) log).
  { rewrite recoverBucket_eq. unfold read_error in He.
    destruct (Bucket_Bucket src n) as [b|].
    - cbv zeta. destruct (fin_of b) as [|e'|r]; try discriminate.
      injection He as ->. do 3 eexists. split; [reflexivity|].
      apply in_or_app. right. now left.
    - injection He as <-. do 3 eexists. split; [reflexivity|].
      right. now left. }
  destruct Hw as (pairs & subs & log & Hw & Hin).
  split; [now exists pairs, subs, log|].
  split; [rewrite Hw; now apply write_back_keeps_log|].
  split.
  - rewrite Hw. unfold write_back. destruct n as [|c0 n0]; [congruence|].
    destruct (put_each _ _ _ _ _) as [[b1 n1] evs1].
    destruct (write_subs _ _ _ _) as [[b2 n2] evs2].
    rewrite Hc. exists b2. unfold rb_dst. simpl fst.
    apply lookup_upsert_same.
  - split; [exact Hok|]. intros names t f. simpl.
    destruct (recoverBucket src commit dst n) as [[[d1 e1] k] ok].
    unfold rb_ok, rb_dst, rb_keys in *. simpl in *. subst ok.
    now destruct (recover_all src commit names d1 (t + k) f) as [[[d' e'] t'] f'].
Qed.

Lemma read_error_does_not_fail_bucket_witness :
  In (ReadError (B "ghost") "bucket not found")
     (rb_log (recoverBucket src_settings no_commit_error [] (B "ghost")))
  /\ rb_ok (recoverBucket src_settings no_commit_error [] (B "ghost")) = true
  /\ exit_status (main world_settings) = 0.
Proof.
  pose proof (@read_error_does_not_fail_bucket src_settings no_commit_error []
                (B "ghost") "bucket not found" eq_refl) as H.
  destruct H as (_ & Hlog & _ & Hok & _).
  - discriminate.
  - reflexivity.
  - split; [exact Hlog|]. split; [exact Hok|]. reflexivity.
Defined.

(** ** The write transaction *)

Lemma put_each_app warn path l1 l2 b n :
  put_each warn path (l1 ++ l2) b n
  = let '(b1, n1, e1) := put_each warn path l1 b n in
    let '(b2, n2, e2) := put_each warn path l2 b1 n1 in
    (b2, n2, e1 ++ e2).
Proof.
  revert b n. induction l1 as [|p l1 IH]; intros b n; simpl.
  - now destruct (put_each warn path l2 b n) as [[b2 n2] e2].
  - destruct (Put b (key p) (value p)) as [b'|e].
    + rewrite IH.
      destruct (put_each warn path l1 b' (S n)) as [[b1 n1] e1].
      now destruct (put_each warn path l2 b1 n1) as [[b2 n2] e2].
    + rewrite IH.
      destruct (put_each warn path l1 b n) as [[b1 n1] e1].
      destruct (put_each warn path l2 b1 n1) as [[b2 n2] e2].
      now rewrite app_assoc.
Qed.

(** A pair the destination refuses is passed over: the bucket and the
    counter end as if the pair had not been staged. *)
Lemma put_each_refused warn path pre p post b n e :
  put_check (key p) (value p) = Some e ->
  fst (put_each warn path (pre ++ p :: post) b n)
  = fst (put_each warn path (pre ++ post) b n).
Proof.
  intros He. rewrite !put_each_app.
  destruct (put_each warn path pre b n) as [[b1 n1] e1]. simpl.
  unfold Put. rewrite He.
  destruct (put_each warn path post b1 n1) as [[b2 n2] e2]. reflexivity.
Qed.

(** C6: a pair of a sub-bucket that the destination refuses is passed
    over and the transaction goes on and succeeds (the other pair is
    written, [ok] is true), but nothing is printed for it; the same
    refused pair held directly by a top-level bucket is reported by a
    [WarnKey] line. *)
Theorem sub_bucket_write_failure_is_silent :
  recoverBucket src_stacks no_commit_error [] (B "stacks")
  = ([(B "stacks", [(B "by_id", Nested [(B "7", Leaf (B "stack"))])])],
     [Recovering (B "stacks");
      Wrote [B "stacks"; B "by_id"] (B "7") (B "stack");
      BucketOK 0 1],
     1, true)
  /\ recoverBucket src_stacks no_commit_error [] (B "flat")
     = ([(B "flat", [(B "7", Leaf (B "stack"))])],
        [Recovering (B "flat");
         WarnKey ErrKeyRequired;
         Wrote [B "flat"] (B "7") (B "stack");
         BucketOK 2 0],
        1, true).
Proof. split; reflexivity. Qed.

(** ** Where a staged entry ends up *)

Lemma Put_ok b k v b' : Put b k v = OK b' -> b' = upsert k (Leaf v) b.
Proof.
  unfold Put. destruct (put_check k v); [discriminate|].
  destruct (lookup k b) as [[w|t]|]; congruence.
Qed.

Lemma Put_fresh b k v :
  put_check k v = None -> lookup k b = None ->
  Put b k v = OK (upsert k (Leaf v) b).
Proof. intros Hc Hl. unfold Put. now rewrite Hc, Hl. Qed.

Lemma CreateBucketIfNotExists_ok b nm b1 c :
  CreateBucketIfNotExists b nm = OK (b1, c) ->
  (lookup nm b = Some (Nested c) /\ b1 = b)
  \/ (lookup nm b = None /\ c = [] /\ b1 = upsert nm (Nested []) b).
Proof.
  unfold CreateBucketIfNotExists. destruct nm as [|x nm]; [discriminate|].
  destruct (lookup (x :: nm) b) as [[w|t]|]; [discriminate| |];
    intros H; injection H as <- <-; auto.
Qed.

Lemma put_each_lookup_other warn path ps b n k :
  ~ In k (map key ps) ->
  lookup k (fst (fst (put_each warn path ps b n))) = lookup k b.
Proof.
  revert b n. induction ps as [|p ps IH]; intros b n Hk; [reflexivity|].
  simpl in Hk. simpl.
  destruct (Put b (key p) (value p)) as [b'|e] eqn:E.
  - specialize (IH b' (S n)).
    destruct (put_each warn path ps b' (S n)) as [[b2 n2] e2]. simpl in *.
    rewrite IH by tauto. rewrite (@Put_ok _ _ _ _ E).
    apply lookup_upsert_other. intros ->. tauto.
  - specialize (IH b n).
    destruct (put_each warn path ps b n) as [[b2 n2] e2]. simpl in *.
    apply IH. tauto.
Qed.

Lemma put_each_lookup_middle warn path pre p post b n :
  ~ In (key p) (map key pre) -> ~ In (key p) (map key post) ->
  put_check (key p) (value p) = None -> lookup (key p) b = None ->
  lookup (key p) (fst (fst (put_each warn path (pre ++ p :: post) b n)))
  = Some (Leaf (value p)).
Proof.
  intros Hpre Hpost Hc Hb. rewrite put_each_app.
  pose proof (@put_each_lookup_other warn path pre b n (key p) Hpre) as H1.
  destruct (put_each warn path pre b n) as [[b1 n1] e1]. simpl in H1.
  simpl put_each. rewrite Put_fresh by congruence.
  pose proof (@put_each_lookup_other warn path post
                (upsert (key p) (Leaf (value p)) b1) (S n1) (key p) Hpost) as H2.
  destruct (put_each warn path post _ _) as [[b2 n2] e2]. simpl in *.
  rewrite H2. apply lookup_upsert_same.
Qed.

Lemma write_subs_app bn l1 l2 b n :
  write_subs bn (l1 ++ l2) b n
  = let '(b1, n1, e1) := write_subs bn l1 b n in
    let '(b2, n2, e2) := write_subs bn l2 b1 n1 in
    (b2, n2, e1 ++ e2).
Proof.
  revert b n. induction l1 as [|sb l1 IH]; intros b n; simpl.
  - now destruct (write_subs bn l2 b n) as [[b2 n2] e2].
  - destruct (CreateBucketIfNotExists b (name sb)) as [[b1 child]|e].
    + destruct (put_each false _ (data sb) child n) as [[child' n1] evs1].
      rewrite IH.
      destruct (write_subs bn l1 _ n1) as [[b2 n2] e2].
      destruct (write_subs bn l2 b2 n2) as [[b3 n3] e3].
      now rewrite app_assoc.
    + rewrite IH.
      destruct (write_subs bn l1 b n) as [[b2 n2] e2].
      now destruct (write_subs bn l2 b2 n2) as [[b3 n3] e3].
Qed.

Lemma write_subs_lookup_other bn subs b n k :
  ~ In k (map name subs) ->
  lookup k (fst (fst (write_subs bn subs b n))) = lookup k b.
Proof.
  revert b n. induction subs as [|sb subs IH]; intros b n Hk; [reflexivity|].
  simpl in Hk. simpl.
  destruct (CreateBucketIfNotExists b (name sb)) as [[b1 child]|e] eqn:E.
  - destruct (put_each false _ (data sb) child n) as [[child' n1] evs1].
    specialize (IH (upsert (name sb) (Nested child') b1) n1).
    destruct (write_subs bn subs _ n1) as [[b2 n2] e2]. simpl in *.
    rewrite IH by tauto.
    rewrite lookup_upsert_other by (intros ->; tauto).
    apply CreateBucketIfNotExists_ok in E.
    destruct E as [[_ ->]|(_ & _ & ->)]; [reflexivity|].
    apply lookup_upsert_other. intros ->. tauto.
  - specialize (IH b n).
    destruct (write_subs bn subs b n) as [[b2 n2] e2]. simpl in *.
    apply IH. tauto.
Qed.

Lemma values_of_keys items k :
  In k (map key (values_of items)) -> In k (map item_key items).
Proof.
  induction items as [|[k0 v|k0 h] items IH]; simpl; tauto.
Qed.

Lemma staged_subs_names b n items k :
  In k (map name (staged_subs b n items)) -> In k (map item_key items).
Proof.
  induction items as [|[k0 v|k0 h] items IH]; simpl; [tauto|tauto|].
  destruct (Bucket_Bucket b k0); simpl; tauto.
Qed.

(** The write transaction of a bucket that is new to the destination and
    commits. *)
Lemma write_back_fresh commit dst n pairs subs log :
  n <> [] -> commit n = None -> lookup n dst = None ->
  lookup n (rb_dst (write_back commit dst n pairs subs log))
  = Some (fst (fst (write_subs n subs
                      (fst (fst (put_each true [n] pairs [] 0)))
                      (snd (fst (put_each true [n] pairs [] 0)))))).
Proof.
  intros Hn Hc Hl. unfold write_back. destruct n as [|x n]; [congruence|].
  rewrite Hl, Hc.
  destruct (put_each _ _ _ _ _) as [[b1 n1] evs1]. simpl.
  destruct (write_subs _ _ _ _) as [[b2 n2] evs2]. simpl.
  apply lookup_upsert_same.
Qed.

Lemma recoverBucket_fresh src commit dst n b :
  Bucket_Bucket src n = Some b -> (forall r, fin_of b <> Unwound r) ->
  n <> [] -> commit n = None -> lookup n dst = None ->
  lookup n (rb_dst (recoverBucket src commit dst n))
  = Some (fst (fst (write_subs n (staged_subs b n (items_of b))
                      (fst (fst (put_each true [n] (values_of (items_of b)) [] 0)))
                      (snd (fst (put_each true [n] (values_of (items_of b)) [] 0)))))).
Proof.
  intros Hb Hf Hn Hc Hl. rewrite recoverBucket_eq, Hb. cbv zeta.
  destruct (fin_of b) as [|e|r]; try now apply write_back_fresh.
  now destruct (Hf r).
Qed.

(** A value entry held directly by a top-level bucket. *)
Lemma direct_entry_recovered src commit dst n b pre k v post :
  Bucket_Bucket src n = Some b -> (forall r, fin_of b <> Unwound r) ->
  n <> [] -> commit n = None -> lookup n dst = None ->
  items_of b = pre ++ Value k v :: post ->
  ~ In k (map item_key pre) -> ~ In k (map item_key post) ->
  put_check k v = None ->
  exists t, lookup n (rb_dst (recoverBucket src commit dst n)) = Some t
            /\ lookup k t = Some (Leaf v).
Proof.
  intros Hb Hf Hn Hc Hl Hitems Hpre Hpost Hk.
  eexists. split; [now apply recoverBucket_fresh with (b := b)|].
  rewrite Hitems, values_of_app, staged_subs_app. simpl.
  rewrite write_subs_lookup_other.
  - apply (@put_each_lookup_middle true [n] (values_of pre)
             {| key := k; value := v |} (values_of post)); simpl; auto;
      intros H; apply values_of_keys in H; tauto.
  - rewrite map_app. intros H. apply in_app_or in H.
    destruct H as [H|H]; apply staged_subs_names in H; tauto.
Qed.

(** A value entry held by a sub-bucket of a top-level bucket. *)
Lemma sub_entry_recovered src commit dst n b pre ks sb post pre' k v post' :
  Bucket_Bucket src n = Some b -> (forall r, fin_of b <> Unwound r) ->
  n <> [] -> commit n = None -> lookup n dst = None ->
  items_of b = pre ++ Marker ks (Some sb) :: post ->
  ~ In ks (map item_key pre) -> ~ In ks (map item_key post) -> ks <> [] ->
  items_of sb = pre' ++ Value k v :: post' ->
  ~ In k (map item_key pre') -> ~ In k (map item_key post') ->
  put_check k v = None ->
  exists t c, lookup n (rb_dst (recoverBucket src commit dst n)) = Some t
              /\ lookup ks t = Some (Nested c)
              /\ lookup k c = Some (Leaf v).
Proof.
  intros Hb Hf Hn Hc Hl Hitems Hpre Hpost Hks Hsub Hpre' Hpost' Hk.
  pose proof (@recoverBucket_fresh src commit dst n b Hb Hf Hn Hc Hl) as HR.
  assert (Hsb : Bucket_Bucket b ks = Some sb).
  { unfold Bucket_Bucket. rewrite Hitems. now apply find_bucket_middle. }
  assert (Hpairs : ~ In ks (map key (values_of (items_of b)))).
  { rewrite Hitems, values_of_app. simpl. rewrite map_app. intros H.
    apply in_app_or in H. destruct H as [H|H]; apply values_of_keys in H; tauto. }
  pose proof (@put_each_lookup_other true [n] (values_of (items_of b)) [] 0 ks Hpairs) as H1.
  destruct (put_each true [n] (values_of (items_of b)) [] 0) as [[b1 n1] evs1].
  simpl in H1, HR.
  rewrite Hitems in HR at 1. rewrite staged_subs_app in HR. simpl in HR.
  rewrite Hsb in HR. rewrite write_subs_app in HR.
  assert (Hspre : ~ In ks (map name (staged_subs b n pre)))
    by (intros H; apply staged_subs_names in H; tauto).
  assert (Hspost : ~ In ks (map name (staged_subs b n post)))
    by (intros H; apply staged_subs_names in H; tauto).
  pose proof (@write_subs_lookup_other n (staged_subs b n pre) b1 n1 ks Hspre) as H2.
  destruct (write_subs n (staged_subs b n pre) b1 n1) as [[b2 n2] evs2].
  simpl in H2. rewrite H1 in H2. simpl in HR.
  unfold CreateBucketIfNotExists in HR. rewrite H2 in HR.
  destruct ks as [|x ks']; [congruence|]. set (ks := x :: ks') in *.
  destruct sb as [sitems sfin]. simpl in Hsub.
  rewrite recoverSubBucket_eq in HR. simpl fst in HR.
  rewrite Hsub, values_of_app in HR. simpl in HR.
  match type of HR with context [put_each false ?p ?d [] n2] =>
    assert (H3 : lookup k (fst (fst (put_each false p d [] n2))) = Some (Leaf v));
    [ apply (@put_each_lookup_middle false p (values_of pre')
               {| key := k; value := v |} (values_of post') [] n2);
      simpl; auto; intros H; apply values_of_keys in H; tauto
    | destruct (put_each false p d [] n2) as [[child n3] evs3] ]
  end.
  simpl in H3.
  rewrite upsert_upsert in HR.
  match type of HR with context [write_subs n ?l ?t n3] =>
    pose proof (@write_subs_lookup_other n l t n3 ks Hspost) as H4;
    destruct (write_subs n l t n3) as [[b4 n4] evs4]
  end.
  simpl in H4, HR. rewrite lookup_upsert_same in H4.
  now exists b4, child.
Qed.

(** C7: a value that is present but empty is staged, by both callbacks,
    as a pair with a zero-length value and never opened as a bucket; and
    when the bucket holding it is recovered without a panic into a
    destination that commits, the key is in the destination with a
    zero-length value, be the entry held by the top-level bucket itself or
    by one of its sub-buckets. *)
Theorem empty_value_is_kept
    (src : bucket) (commit : bytes -> option string) (dst : store)
    (n : bytes) (b : bucket) :
  Bucket_Bucket src n = Some b -> (forall r, fin_of b <> Unwound r) ->
  n <> [] -> commit n = None -> lookup n dst = None ->
  (forall k pairs subs log,
     stage_entry b n k (Some []) (pairs, subs, log)
     = ((pairs ++ [{| key := k; value := [] |}], subs, log), None))
  /\ (forall k pairs,
        stage_sub_entry k (Some []) pairs
        = (pairs ++ [{| key := k; value := [] |}], None))
  /\ (forall pre k post,
        items_of b = pre ++ Value k [] :: post ->
        ~ In k (map item_key pre) -> ~ In k (map item_key post) ->
        put_check k [] = None ->
        exists t,
          lookup n (rb_dst (recoverBucket src commit dst n)) = Some t
          /\ lookup k t = Some (Leaf []))
  /\ (forall pre ks sb post pre' k post',
        items_of b = pre ++ Marker ks (Some sb) :: post ->
        ~ In ks (map item_key pre) -> ~ In ks (map item_key post) ->
        ks <> [] ->
        items_of sb = pre' ++ Value k [] :: post' ->
        ~ In k (map item_key pre') -> ~ In k (map item_key post') ->
        put_check k [] = None ->
        exists t c,
          lookup n (rb_dst (recoverBucket src commit dst n)) = Some t
          /\ lookup ks t = Some (Nested c)
          /\ lookup k c = Some (Leaf [])).
Proof.
  intros Hb Hf Hn Hc Hl.
  split; [intros; simpl; now rewrite clone_id|].
  split; [intros; unfold stage_sub_entry; now rewrite clone_id|].
  split.
  - intros pre k post. now apply direct_entry_recovered.
  - intros pre ks sb post pre' k post'. now apply sub_entry_recovered.
Qed.

Lemma empty_value_is_kept_witness :
  (exists t,
     lookup (B "flags")
       (rb_dst (recoverBucket src_flags no_commit_error [] (B "flags"))) = Some t
     /\ lookup (B "seen") t = Some (Leaf []))
  /\ (exists t c,
        lookup (B "flags")
          (rb_dst (recoverBucket src_flags no_commit_error [] (B "flags"))) = Some t
        /\ lookup (B "users") t = Some (Nested c)
        /\ lookup (B "u1") c = Some (Leaf [])).
Proof.
  destruct (@empty_value_is_kept src_flags no_commit_error [] (B "flags")
    (MkBucket
       [Value (B "a") (B "1"); Value (B "seen") [];
        Marker (B "users")
          (Some (MkBucket [Value (B "u1") []; Value (B "u2") (B "x")] Done));
        Value (B "z") (B "2")] Done))
    as (_ & _ & Hdirect & Hsub);
    try reflexivity; try discriminate.
  split.
  - apply (Hdirect [Value (B "a") (B "1")] (B "seen")
             [Marker (B "users")
                (Some (MkBucket [Value (B "u1") []; Value (B "u2") (B "x")] Done));
              Value (B "z") (B "2")]);
      try reflexivity; simpl; intuition discriminate.
  - apply (Hsub [Value (B "a") (B "1"); Value (B "seen") []] (B "users")
             (MkBucket [Value (B "u1") []; Value (B "u2") (B "x")] Done)
             [Value (B "z") (B "2")] [] (B "u1") [Value (B "u2") (B "x")]);
      try reflexivity; try discriminate; simpl; intuition discriminate.
Defined.

(** ** Counting writes and entries *)

Lemma node_entries_Nested t : node_entries (Nested t) = tree_entries t.
Proof.
  unfold tree_entries. induction t as [|[k x] t IH]; [reflexivity|].
  simpl in *. now rewrite IH.
Qed.

Lemma tree_entries_app t1 t2 :
  tree_entries (t1 ++ t2) = tree_entries t1 + tree_entries t2.
Proof. unfold tree_entries. now rewrite map_app, list_sum_app. Qed.

Lemma tree_entries_single k x : tree_entries [(k, x)] = node_entries x.
Proof. unfold tree_entries. cbn [map list_sum snd]. apply Nat.add_0_r. Qed.

Lemma store_entries_app d1 d2 :
  store_entries (d1 ++ d2) = store_entries d1 + store_entries d2.
Proof. unfold store_entries. now rewrite map_app, list_sum_app. Qed.

Lemma wrote_count_app l1 l2 :
  wrote_count (l1 ++ l2) = wrote_count l1 + wrote_count l2.
Proof. unfold wrote_count. now rewrite filter_app, length_app. Qed.

Lemma put_each_count warn path ps b n :
  snd (fst (put_each warn path ps b n))
  = n + wrote_count (snd (put_each warn path ps b n)).
Proof.
  revert b n. induction ps as [|p ps IH]; intros b n; simpl;
    [unfold wrote_count; simpl; lia|].
  destruct (Put b (key p) (value p)) as [b'|e].
  - specialize (IH b' (S n)).
    destruct (put_each warn path ps b' (S n)) as [[b2 n2] e2]. simpl in *.
    unfold wrote_count in *. simpl. lia.
  - specialize (IH b n).
    destruct (put_each warn path ps b n) as [[b2 n2] e2]. simpl in *.
    rewrite wrote_count_app. now destruct warn.
Qed.

Lemma write_subs_count bn subs b n :
  snd (fst (write_subs bn subs b n))
  = n + wrote_count (snd (write_subs bn subs b n)).
Proof.
  revert b n. induction subs as [|sb subs IH]; intros b n; simpl;
    [unfold wrote_count; simpl; lia|].
  destruct (CreateBucketIfNotExists b (name sb)) as [[b1 child]|e].
  - pose proof (put_each_count false [bn; name sb] (data sb) child n) as P.
    destruct (put_each false _ (data sb) child n) as [[child' n1] evs1].
    specialize (IH (upsert (name sb) (Nested child') b1) n1).
    destruct (write_subs bn subs _ n1) as [[b2 n2] e2]. simpl in *.
    rewrite wrote_count_app. lia.
  - specialize (IH b n).
    destruct (write_subs bn subs b n) as [[b2 n2] e2]. simpl in *.
    exact IH.
Qed.

Lemma staged_log_no_write b n items : wrote_count (staged_log b n items) = 0.
Proof.
  induction items as [|[k v|k h] items IH]; simpl; auto.
  destruct (Bucket_Bucket b k) as [[sitems sfin]|]; [|exact IH].
  rewrite wrote_count_app, IH, recoverSubBucket_eq. now destruct sfin.
Qed.

Lemma write_back_count commit dst n pairs subs log :
  wrote_count (rb_log (write_back commit dst n pairs subs log))
  = wrote_count log + rb_keys (write_back commit dst n pairs subs log).
Proof.
  unfold write_back. destruct n as [|x n]; simpl.
  - unfold rb_log, rb_keys. simpl. rewrite wrote_count_app. simpl. reflexivity.
  - match goal with |- context [put_each true ?p pairs ?t 0] =>
      pose proof (put_each_count true p pairs t 0) as P;
      destruct (put_each true p pairs t 0) as [[b1 n1] evs1]
    end.
    match goal with |- context [write_subs ?m subs b1 n1] =>
      pose proof (write_subs_count m subs b1 n1) as Q;
      destruct (write_subs m subs b1 n1) as [[b2 n2] evs2]
    end.
    simpl in P, Q.
    destruct (commit (x :: n)); unfold rb_log, rb_keys; simpl;
      rewrite !wrote_count_app; simpl; unfold wrote_count at 4; simpl; lia.
Qed.

Lemma recoverBucket_count src commit dst n :
  rb_keys (recoverBucket src commit dst n)
  = wrote_count (rb_log (recoverBucket src commit dst n)).
Proof.
  rewrite recoverBucket_eq.
  destruct (Bucket_Bucket src n) as [b|].
  - cbv zeta. destruct (fin_of b).
    + rewrite write_back_count. unfold wrote_count at 1. simpl.
      fold (wrote_count (staged_log b n (items_of b))).
      now rewrite staged_log_no_write.
    + rewrite write_back_count, wrote_count_app. unfold wrote_count at 1. simpl.
      fold (wrote_count (staged_log b n (items_of b))).
      now rewrite staged_log_no_write.
    + unfold rb_keys, rb_log. simpl. unfold wrote_count. simpl.
      fold (wrote_count (staged_log b n (items_of b) ++ [PanicBucket n r 0])).
      now rewrite wrote_count_app, staged_log_no_write.
  - now rewrite write_back_count.
Qed.

Lemma recover_all_count src commit names dst t f :
  ra_total (recover_all src commit names dst t f)
  = t + wrote_count (ra_log (recover_all src commit names dst t f)).
Proof.
  revert dst t f. induction names as [|n names IH]; intros dst t f; simpl.
  - unfold ra_total, ra_log, wrote_count. simpl. lia.
  - pose proof (recoverBucket_count src commit dst n) as C.
    destruct (recoverBucket src commit dst n) as [[[d1 e1] k] ok].
    specialize (IH d1 (t + k) (if ok then f else S f)).
    destruct (recover_all src commit names d1 _ _) as [[[d' e'] t'] f'].
    unfold ra_total, ra_log, rb_keys, rb_log in *. simpl in *.
    rewrite wrote_count_app. lia.
Qed.

Lemma existsb_eqb_In x l : existsb (bytes_eqb x) l = true <-> In x l.
Proof.
  rewrite existsb_exists. split.
  - intros (y & Hy & E). apply bytes_eqb_eq in E. now subst.
  - intros H. exists x. split; [exact H|apply bytes_eqb_refl].
Qed.

Lemma nodupb_NoDup l : nodupb l = true -> NoDup l.
Proof.
  induction l as [|x l IH]; simpl; intros H; constructor;
    apply andb_true_iff in H; destruct H as [Hx Hl].
  - intros Hin. apply existsb_eqb_In in Hin. rewrite Hin in Hx. discriminate.
  - now apply IH.
Qed.

Lemma values_of_NoDup items :
  NoDup (map item_key items) -> NoDup (map key (values_of items)).
Proof.
  induction items as [|[k v|k h] items IH]; simpl; intros H;
    [constructor| |]; inversion H as [|x l Hx Hl]; subst; auto.
  constructor; auto. intros Hin. apply values_of_keys in Hin. contradiction.
Qed.

Lemma staged_subs_NoDup b n items :
  NoDup (map item_key items) -> NoDup (map name (staged_subs b n items)).
Proof.
  induction items as [|[k v|k h] items IH]; simpl; intros H;
    [constructor| |]; inversion H as [|x l Hx Hl]; subst; auto.
  destruct (Bucket_Bucket b k); auto. simpl.
  constructor; auto. intros Hin. apply staged_subs_names in Hin. contradiction.
Qed.

Lemma staged_disjoint b n items k :
  NoDup (map item_key items) ->
  In k (map key (values_of items)) ->
  ~ In k (map name (staged_subs b n items)).
Proof.
  induction items as [|[k0 v|k0 h] items IH]; simpl; intros H Hv Hs;
    [contradiction| |]; inversion H as [|x l Hx Hl]; subst.
  - destruct Hv as [->|Hv]; [|now apply IH].
    apply staged_subs_names in Hs. contradiction.
  - destruct (Bucket_Bucket b k0); [|now apply IH].
    simpl in Hs. destruct Hs as [->|Hs]; [|now apply IH].
    apply values_of_keys in Hv. contradiction.
Qed.

Lemma find_bucket_In items k sb :
  find_bucket items k = Some sb -> exists k', In (Marker k' (Some sb)) items.
Proof.
  induction items as [|[k0 v|k0 h] items IH]; simpl; [discriminate| |].
  - destruct (bytes_eqb k0 k); [discriminate|].
    intros H. destruct (IH H) as [k' Hk']. exists k'. now right.
  - destruct (bytes_eqb k0 k).
    + intros ->. exists k0. now left.
    + intros H. destruct (IH H) as [k' Hk']. exists k'. now right.
Qed.

Lemma subs_all_Bucket (P : bucket -> bool) b k sb :
  subs_all P b = true -> Bucket_Bucket b k = Some sb -> P sb = true.
Proof.
  unfold subs_all, Bucket_Bucket. intros Hall Hf.
  destruct (@find_bucket_In _ _ _ Hf) as [k' Hin].
  rewrite forallb_forall in Hall. exact (Hall _ Hin).
Qed.

Lemma staged_subs_data b n items sb :
  subs_all distinct_keys b = true ->
  In sb (staged_subs b n items) -> NoDup (map key (data sb)).
Proof.
  intros Hall. induction items as [|[k v|k h] items IH]; simpl;
    [contradiction|exact IH|].
  destruct (Bucket_Bucket b k) as [sub|] eqn:E; [|exact IH].
  intros [<-|Hin]; [|now apply IH].
  simpl. destruct sub as [sitems sfin]. rewrite recoverSubBucket_eq. simpl.
  apply values_of_NoDup. apply nodupb_NoDup.
  exact (@subs_all_Bucket distinct_keys b k _ Hall E).
Qed.

(** Distinct keys put into a bucket that holds none of them: every
    accepted write adds one entry. *)
Lemma put_each_fresh_entries warn path ps b n :
  NoDup (map key ps) -> (forall k, In k (map key ps) -> lookup k b = None) ->
  tree_entries (fst (fst (put_each warn path ps b n))) + n
  = tree_entries b + snd (fst (put_each warn path ps b n)).
Proof.
  revert b n. induction ps as [|p ps IH]; intros b n Hnd Hb; simpl; [lia|].
  inversion Hnd as [|x l Hx Hl]; subst.
  assert (Hp : lookup (key p) b = None) by (apply Hb; now left).
  unfold Put. rewrite Hp.
  destruct (put_check (key p) (value p)) as [e|].
  - specialize (IH b n Hl (fun k Hk => Hb k (or_intror Hk))).
    destruct (put_each warn path ps b n) as [[b2 n2] e2]. exact IH.
  - assert (Hb' : forall k, In k (map key ps) ->
                    lookup k (upsert (key p) (Leaf (value p)) b) = None).
    { intros k Hk. rewrite lookup_upsert_other.
      - apply Hb. now right.
      - intros ->. contradiction. }
    specialize (IH _ (S n) Hl Hb').
    destruct (put_each warn path ps _ (S n)) as [[b2 n2] e2]. simpl in *.
    rewrite (@upsert_fresh _ _ _ _ Hp), tree_entries_app,
      tree_entries_single in IH.
    cbn [node_entries] in IH. lia.
Qed.

Lemma write_subs_fresh_entries bn subs b n :
  NoDup (map name subs) -> (forall k, In k (map name subs) -> lookup k b = None) ->
  (forall sb, In sb subs -> NoDup (map key (data sb))) ->
  tree_entries (fst (fst (write_subs bn subs b n))) + n
  = tree_entries b + snd (fst (write_subs bn subs b n)).
Proof.
  revert b n. induction subs as [|sb subs IH]; intros b n Hnd Hb Hdata; simpl;
    [lia|].
  inversion Hnd as [|x l Hx Hl]; subst.
  assert (Hp : lookup (name sb) b = None) by (apply Hb; now left).
  unfold CreateBucketIfNotExists. rewrite Hp.
  destruct (name sb) as [|c nm] eqn:En.
  - specialize (IH b n Hl (fun k Hk => Hb k (or_intror Hk))
                  (fun s Hs => Hdata s (or_intror Hs))).
    destruct (write_subs bn subs b n) as [[b2 n2] e2]. exact IH.
  - rewrite <- En in *.
    pose proof (@put_each_fresh_entries false [bn; name sb] (data sb) [] n
                  (Hdata sb (or_introl eq_refl)) (fun k _ => eq_refl)) as P.
    destruct (put_each false _ (data sb) [] n) as [[child n1] evs1].
    simpl in P. rewrite upsert_upsert.
    assert (Hb' : forall k, In k (map name subs) ->
                    lookup k (upsert (name sb) (Nested child) b) = None).
    { intros k Hk. rewrite lookup_upsert_other.
      - apply Hb. now right.
      - intros ->. contradiction. }
    specialize (IH _ n1 Hl Hb' (fun s Hs => Hdata s (or_intror Hs))).
    destruct (write_subs bn subs _ n1) as [[b2 n2] e2]. simpl in *.
    rewrite (@upsert_fresh _ _ _ _ Hp), tree_entries_app,
      tree_entries_single, node_entries_Nested in IH.
    change (tree_entries []) with 0 in P. lia.
Qed.

Lemma write_back_entries commit dst n pairs subs log :
  commit n = None -> lookup n dst = None ->
  NoDup (map key pairs) -> NoDup (map name subs) ->
  (forall k, In k (map key pairs) -> ~ In k (map name subs)) ->
  (forall sb, In sb subs -> NoDup (map key (data sb))) ->
  store_entries (rb_dst (write_back commit dst n pairs subs log))
  = store_entries dst + rb_keys (write_back commit dst n pairs subs log).
Proof.
  intros Hc Hl Hp Hs Hdis Hdata. unfold write_back.
  destruct n as [|x n]; [unfold rb_dst, rb_keys; simpl; lia|].
  rewrite Hl, Hc.
  match goal with |- context [put_each true ?p pairs [] 0] =>
    pose proof (@put_each_fresh_entries true p pairs [] 0 Hp (fun k _ => eq_refl)) as P;
    assert (Q0 : forall k, In k (map name subs) ->
                   lookup k (fst (fst (put_each true p pairs [] 0))) = None);
    [ intros k Hk; rewrite put_each_lookup_other; [reflexivity|];
      intros Hin; exact (Hdis k Hin Hk)
    | destruct (put_each true p pairs [] 0) as [[b1 n1] evs1] ]
  end.
  simpl in P, Q0.
  match goal with |- context [write_subs ?m subs b1 n1] =>
    pose proof (@write_subs_fresh_entries m subs b1 n1 Hs Q0 Hdata) as Q;
    destruct (write_subs m subs b1 n1) as [[b2 n2] evs2]
  end.
  simpl in Q. unfold rb_dst, rb_keys. simpl fst. simpl snd.
  rewrite (@upsert_fresh _ _ _ _ Hl), store_entries_app.
  unfold store_entries at 2. cbn [map snd].
  change (list_sum [tree_entries b2]) with (tree_entries b2 + 0).
  change (tree_entries []) with 0 in P. lia.
Qed.

Lemma recoverBucket_entries src commit dst n :
  commit n = None -> lookup n dst = None ->
  (forall b, Bucket_Bucket src n = Some b -> unique_keys_bucket b = true) ->
  store_entries (rb_dst (recoverBucket src commit dst n))
  = store_entries dst + rb_keys (recoverBucket src commit dst n).
Proof.
  intros Hc Hl Hu. rewrite recoverBucket_eq.
  destruct (Bucket_Bucket src n) as [b|].
  - specialize (Hu b eq_refl). unfold unique_keys_bucket in Hu.
    apply andb_true_iff in Hu. destruct Hu as [Hd Hs].
    apply nodupb_NoDup in Hd.
    assert (W : forall log,
      store_entries (rb_dst (write_back commit dst n (values_of (items_of b))
                               (staged_subs b n (items_of b)) log))
      = store_entries dst
        + rb_keys (write_back commit dst n (values_of (items_of b))
                     (staged_subs b n (items_of b)) log)).
    { intros log. apply write_back_entries; auto.
      - now apply values_of_NoDup.
      - now apply staged_subs_NoDup.
      - intros k. now apply staged_disjoint.
      - intros sb. now apply staged_subs_data. }
    cbv zeta. destruct (fin_of b); try apply W.
    unfold rb_dst, rb_keys. simpl. lia.
  - apply write_back_entries; auto; try constructor; simpl; tauto.
Qed.

Lemma recover_all_entries src commit names dst t f :
  NoDup names ->
  (forall n, In n names -> commit n = None) ->
  (forall n, In n names -> lookup n dst = None) ->
  (forall n b, Bucket_Bucket src n = Some b -> unique_keys_bucket b = true) ->
  store_entries (ra_dst (recover_all src commit names dst t f)) + t
  = store_entries dst + ra_total (recover_all src commit names dst t f).
Proof.
  intros Hnd Hc Hl Hu. revert dst t f Hl.
  induction names as [|n names IH]; intros dst t f Hl; simpl.
  - unfold ra_dst, ra_total. simpl. lia.
  - inversion Hnd as [|x l Hx Hnd']; subst.
    pose proof (@recoverBucket_entries src commit dst n
                  (Hc n (or_introl eq_refl)) (Hl n (or_introl eq_refl))
                  (Hu n)) as E.
    assert (Hl' : forall m, In m names ->
                    lookup m (rb_dst (recoverBucket src commit dst n)) = None).
    { intros m Hm. rewrite recoverBucket_frame.
      - apply Hl. now right.
      - intros ->. contradiction. }
    destruct (recoverBucket src commit dst n) as [[[d1 e1] k] ok].
    unfold rb_dst, rb_keys in *. simpl in E, Hl'.
    specialize (IH Hnd' (fun m Hm => Hc m (or_intror Hm)) d1 (t + k)
                  (if ok then f else S f) Hl').
    destruct (recover_all src commit names d1 _ _) as [[[d' e'] t'] f'].
    unfold ra_dst, ra_total in *. simpl in *. lia.
Qed.

Lemma last_snoc {A : Type} (l : list A) (a d : A) : last (l ++ [a]) d = a.
Proof.
  induction l as [|x l IH]; [reflexivity|].
  simpl. destruct (l ++ [a]) eqn:E; [now destruct l|exact IH].
Qed.

(** C10, as stated, fails: a bucket whose enumeration yields the same key
    twice gets two accepted writes, the summary reports 2 keys, and the
    destination holds one entry. *)
Lemma total_exceeds_entries_on_repeated_key :
  In (Summary 2 0 1) (output (main world_twice))
  /\ wrote_count (output (main world_twice)) = 2
  /\ option_map store_entries (dest (main world_twice)) = Some 1.
Proof.
  repeat split; try reflexivity. vm_compute. intuition.
Qed.

(** C10, amended: the total printed in the summary is the number of writes
    the destination accepted during the run; and when the destination
    starts empty, every transaction commits, and no name or key occurs
    twice among the bucket names, the entries of a bucket or the entries
    of a sub-bucket, that total is the number of entries the destination
    holds at the end. *)
Theorem total_counts_accepted_writes (w : world) (src : bucket) (dst : store) :
  List.length (args w) = 3 -> open_src w = OK src -> open_dst w = OK dst ->
  fin_of src = Done ->
  (exists failed,
     last (output (main w)) Usage
     = Summary (wrote_count (output (main w))) failed
               (List.length (bucket_names src)))
  /\ (dst = [] ->
      (forall n, In n (bucket_names src) -> commit_error w n = None) ->
      unique_keys src = true ->
      option_map store_entries (dest (main w))
      = Some (wrote_count (output (main w)))).
Proof.
  intros Ha Hs Hd Hf. rewrite (main_eq w Ha Hs Hd), Hf.
  pose proof (recover_all_count src (commit_error w) (bucket_names src) dst 0 0) as C.
  assert (E : dst = [] ->
    (forall n, In n (bucket_names src) -> commit_error w n = None) ->
    unique_keys src = true ->
    store_entries (ra_dst (recover_all src (commit_error w) (bucket_names src) dst 0 0))
    = ra_total (recover_all src (commit_error w) (bucket_names src) dst 0 0)).
  { intros -> Hc Hu. unfold unique_keys in Hu. apply andb_true_iff in Hu.
    destruct Hu as [Hn Hb].
    pose proof (@recover_all_entries src (commit_error w) (bucket_names src) [] 0 0
                  (@nodupb_NoDup _ Hn) Hc (fun n _ => eq_refl)
                  (fun n b Hnb => @subs_all_Bucket unique_keys_bucket src n b Hb Hnb)) as R.
    change (store_entries []) with 0 in R. lia. }
  destruct (recover_all _ _ _ _ _ _) as [[[d' log] total] failed].
  unfold ra_total, ra_log, ra_dst in *. simpl in C, E.
  cbn [output dest option_map].
  assert (W : wrote_count (Found (List.length (bucket_names src)) :: log ++
                [Summary total failed (List.length (bucket_names src))]) = total).
  { change (Found ?x :: ?l ++ ?y) with ((Found x :: l) ++ y).
    rewrite wrote_count_app. unfold wrote_count at 2. simpl.
    unfold wrote_count. simpl. fold (wrote_count log). lia. }
  rewrite W. split.
  - exists failed.
    change (Found ?x :: ?l ++ ?y) with ((Found x :: l) ++ y).
    apply last_snoc.
  - intros H1 H2 H3. now rewrite E.
Qed.

Lemma total_counts_accepted_writes_witness :
  (exists failed,
     last (output (main world_settings)) Usage
     = Summary (wrote_count (output (main world_settings))) failed 2)
  /\ option_map store_entries (dest (main world_settings))
     = Some (wrote_count (output (main world_settings))).
Proof.
  destruct (@total_counts_accepted_writes world_settings src_settings []
              eq_refl eq_refl eq_refl eq_refl) as [H1 H2].
  split; [exact H1|].
  apply H2; [reflexivity| |reflexivity].
  intros n _. reflexivity.
Defined.

(** * Further properties of the recovery *)

(** ** Which value a key ends with *)

Lemma write_back_written commit dst n pairs subs log :
  n <> [] -> commit n = None ->
  lookup n (rb_dst (write_back commit dst n pairs subs log))
  = Some (fst (fst (write_subs n subs
                      (fst (fst (put_each true [n] pairs (bucket_in dst n) 0)))
                      (snd (fst (put_each true [n] pairs (bucket_in dst n) 0)))))).
Proof.
  intros Hn Hc. unfold write_back, bucket_in. destruct n as [|x n]; [congruence|].
  rewrite Hc.
  destruct (put_each _ _ _ _ _) as [[b1 n1] evs1]. simpl.
  destruct (write_subs _ _ _ _) as [[b2 n2] evs2]. simpl.
  apply lookup_upsert_same.
Qed.

Lemma recoverBucket_written src commit dst n b :
  Bucket_Bucket src n = Some b -> (forall r, fin_of b <> Unwound r) ->
  n <> [] -> commit n = None ->
  lookup n (rb_dst (recoverBucket src commit dst n))
  = Some (fst (fst (write_subs n (staged_subs b n (items_of b))
       (fst (fst (put_each true [n] (values_of (items_of b)) (bucket_in dst n) 0)))
       (snd (fst (put_each true [n] (values_of (items_of b)) (bucket_in dst n) 0)))))).
Proof.
  intros Hb Hf Hn Hc. rewrite recoverBucket_eq, Hb. cbv zeta.
  destruct (fin_of b) as [|e|r]; try now apply write_back_written.
  now destruct (Hf r).
Qed.

Lemma put_each_not_nested warn path ps b n k :
  (forall c, lookup k b <> Some (Nested c)) ->
  forall c, lookup k (fst (fst (put_each warn path ps b n))) <> Some (Nested c).
Proof.
  revert b n. induction ps as [|p ps IH]; intros b n Hb; [exact Hb|].
  simpl. destruct (Put b (key p) (value p)) as [b'|e] eqn:E.
  - specialize (IH b' (S n)).
    destruct (put_each warn path ps b' (S n)) as [[b2 n2] e2]. simpl in *.
    apply IH. intros c. rewrite (@Put_ok _ _ _ _ E).
    destruct (bytes_eq_dec k (key p)) as [->|Hne].
    + rewrite lookup_upsert_same. discriminate.
    + rewrite lookup_upsert_other by assumption. apply Hb.
  - specialize (IH b n).
    destruct (put_each warn path ps b n) as [[b2 n2] e2]. simpl in *.
    now apply IH.
Qed.

Lemma Put_not_nested b k v :
  put_check k v = None -> (forall c, lookup k b <> Some (Nested c)) ->
  Put b k v = OK (upsert k (Leaf v) b).
Proof.
  intros Hc Hb. unfold Put. rewrite Hc.
  destruct (lookup k b) as [[w|c]|]; try reflexivity. now destruct (Hb c).
Qed.

(** The last pair staged for a key decides its value. *)
Lemma put_each_lookup_last warn path pre p post b n :
  ~ In (key p) (map key post) -> put_check (key p) (value p) = None ->
  (forall c, lookup (key p) b <> Some (Nested c)) ->
  lookup (key p) (fst (fst (put_each warn path (pre ++ p :: post) b n)))
  = Some (Leaf (value p)).
Proof.
  intros Hpost Hc Hb. rewrite put_each_app.
  pose proof (@put_each_not_nested warn path pre b n (key p) Hb) as H1.
  destruct (put_each warn path pre b n) as [[b1 n1] e1]. simpl in H1.
  simpl put_each. rewrite Put_not_nested by assumption.
  pose proof (@put_each_lookup_other warn path post
                (upsert (key p) (Leaf (value p)) b1) (S n1) (key p) Hpost) as H2.
  destruct (put_each warn path post _ _) as [[b2 n2] e2]. simpl in *.
  rewrite H2. apply lookup_upsert_same.
Qed.

(** The loop over the sub-buckets never replaces a value. *)
Lemma write_subs_leaf bn subs b n k v :
  lookup k b = Some (Leaf v) ->
  lookup k (fst (fst (write_subs bn subs b n))) = Some (Leaf v).
Proof.
  revert b n. induction subs as [|sb subs IH]; intros b n Hk; [exact Hk|].
  simpl.
  destruct (CreateBucketIfNotExists b (name sb)) as [[b1 child]|e] eqn:E.
  - destruct (put_each false _ (data sb) child n) as [[child' n1] evs1].
    specialize (IH (upsert (name sb) (Nested child') b1) n1).
    destruct (write_subs bn subs _ n1) as [[b2 n2] e2]. simpl in *.
    apply IH. apply CreateBucketIfNotExists_ok in E.
    destruct (bytes_eq_dec k (name sb)) as [->|Hne].
    + destruct E as [[E _]|[E _]]; congruence.
    + rewrite lookup_upsert_other by assumption.
      destruct E as [[_ ->]|(_ & _ & ->)]; [exact Hk|].
      now rewrite lookup_upsert_other.
  - specialize (IH b n).
    destruct (write_subs bn subs b n) as [[b2 n2] e2]. simpl in *.
    now apply IH.
Qed.

Lemma values_of_In items k v :
  In {| key := k; value := v |} (values_of items) <-> In (Value k v) items.
Proof.
  induction items as [|[k0 v0|k0 h] items IH]; simpl; [tauto| |].
  - rewrite IH. split; (intros [H|H]; [left; congruence|now right]).
  - rewrite IH. split; [tauto|]. intros [H|H]; [discriminate|exact H].
Qed.

(** X1: in a top-level bucket recovered without a panic by a transaction
    that commits, a value entry whose key no later value entry of the
    bucket repeats is in the destination with its value, provided [Put]
    accepts the pair and the destination does not already hold a bucket
    under that key: earlier entries with the same key are overwritten, and
    a sub-bucket of the same name does not displace the value. *)
Theorem last_value_entry_wins
    (src : bucket) (commit : bytes -> option string) (dst : store)
    (n : bytes) (b : bucket) (pre post : list item) (k v : bytes) :
  Bucket_Bucket src n = Some b -> (forall r, fin_of b <> Unwound r) ->
  n <> [] -> commit n = None ->
  items_of b = pre ++ Value k v :: post ->
  ~ In k (map key (values_of post)) -> put_check k v = None ->
  (forall c, lookup k (bucket_in dst n) <> Some (Nested c)) ->
  exists t, lookup n (rb_dst (recoverBucket src commit dst n)) = Some t
            /\ lookup k t = Some (Leaf v).
Proof.
  intros Hb Hf Hn Hc Hitems Hpost Hk Hd.
  eexists. split; [now apply recoverBucket_written with (b := b)|].
  apply write_subs_leaf. rewrite Hitems, values_of_app. simpl.
  now apply (@put_each_lookup_last true [n] (values_of pre)
               {| key := k; value := v |} (values_of post)).
Qed.

Lemma last_value_entry_wins_witness :
  exists t,
    lookup (B "teams")
      (rb_dst (recoverBucket src_rewritten no_commit_error dst_used (B "teams")))
    = Some t
    /\ lookup (B "1") t = Some (Leaf (B "new")).
Proof.
  apply (@last_value_entry_wins src_rewritten no_commit_error dst_used (B "teams")
    (MkBucket
       [Value (B "1") (B "old");
        Marker (B "members")
          (Some (MkBucket [Value (B "7") (B "a"); Value (B "7") (B "b")]
                   (Failed "tx closed")));
        Value (B "1") (B "new")] Done)
    [Value (B "1") (B "old");
     Marker (B "members")
       (Some (MkBucket [Value (B "7") (B "a"); Value (B "7") (B "b")]
                (Failed "tx closed")))]
    [] (B "1") (B "new"));
    try reflexivity; try discriminate; simpl; intuition discriminate.
Defined.

Lemma write_subs_cons bn sb rest b n :
  write_subs bn (sb :: rest) b n
  = match CreateBucketIfNotExists b (name sb) with
    | Err e =>
        let '(b', n', evs) := write_subs bn rest b n in
        (b', n', WarnSubBucket (name sb) e :: evs)
    | OK (b1, child) =>
        let '(child', n1, evs1) :=
          put_each false [bn; name sb] (data sb) child n in
        let '(b', n', evs) :=
          write_subs bn rest (upsert (name sb) (Nested child') b1) n1 in
        (b', n', evs1 ++ evs)
    end.
Proof. reflexivity. Qed.

Lemma CreateBucketIfNotExists_not_leaf b ks :
  ks <> [] -> (forall v0, lookup ks b <> Some (Leaf v0)) ->
  exists b1,
    CreateBucketIfNotExists b ks = OK (b1, child_in b ks)
    /\ forall x, upsert ks x b1 = upsert ks x b.
Proof.
  intros Hne Hl. unfold CreateBucketIfNotExists, child_in.
  destruct ks as [|c ks]; [congruence|].
  destruct (lookup (c :: ks) b) as [[w|t]|].
  - now destruct (Hl w).
  - exists b. split; reflexivity.
  - eexists. split; [reflexivity|]. intros x. apply upsert_upsert.
Qed.

(** What the loop over the sub-buckets leaves under the name of one of
    them, when no other staged sub-bucket bears that name. *)
Lemma write_subs_lookup_at bn pre sb post b n :
  ~ In (name sb) (map name pre) -> ~ In (name sb) (map name post) ->
  name sb <> [] -> (forall v0, lookup (name sb) b <> Some (Leaf v0)) ->
  exists n',
    lookup (name sb) (fst (fst (write_subs bn (pre ++ sb :: post) b n)))
    = Some (Nested (fst (fst (put_each false [bn; name sb] (data sb)
                                (child_in b (name sb)) n')))).
Proof.
  intros Hpre Hpost Hne Hl. rewrite write_subs_app.
  pose proof (@write_subs_lookup_other bn pre b n (name sb) Hpre) as H1.
  destruct (write_subs bn pre b n) as [[b2 n2] e2]. simpl in H1.
  exists n2. rewrite write_subs_cons.
  destruct (@CreateBucketIfNotExists_not_leaf b2 (name sb) Hne) as (b1 & E & Hu).
  { intros v0. rewrite H1. apply Hl. }
  rewrite E.
  replace (child_in b2 (name sb)) with (child_in b (name sb))
    by (unfold child_in; now rewrite H1).
  destruct (put_each false [bn; name sb] (data sb) (child_in b (name sb)) n2)
    as [[child' n3] evs3].
  rewrite Hu.
  pose proof (@write_subs_lookup_other bn post
                (upsert (name sb) (Nested child') b2) n3 (name sb) Hpost) as H4.
  destruct (write_subs bn post _ n3) as [[b4 n4] e4]. simpl in *.
  rewrite H4. apply lookup_upsert_same.
Qed.

(** X2: in a top-level bucket recovered without a panic by a transaction
    that commits, a value entry of a sub-bucket is in the destination
    under the sub-bucket's name with its value, however the enumeration of
    the sub-bucket ends after yielding it, provided no later value entry
    of the sub-bucket repeats the key, the sub-bucket's name is not empty
    and is not that of another entry of the parent, [Put] accepts the pair,
    and the destination holds neither a value under the sub-bucket's name
    nor a bucket under the key. *)
Theorem sub_bucket_entry_is_recovered
    (src : bucket) (commit : bytes -> option string) (dst : store)
    (n : bytes) (b : bucket) (pre post : list item) (ks : bytes) (sb : bucket)
    (pre' post' : list item) (k v : bytes) :
  Bucket_Bucket src n = Some b -> (forall r, fin_of b <> Unwound r) ->
  n <> [] -> commit n = None ->
  items_of b = pre ++ Marker ks (Some sb) :: post ->
  ~ In ks (map item_key pre) -> ~ In ks (map item_key post) -> ks <> [] ->
  items_of sb = pre' ++ Value k v :: post' ->
  ~ In k (map key (values_of post')) -> put_check k v = None ->
  (forall v0, lookup ks (bucket_in dst n) <> Some (Leaf v0)) ->
  (forall c, lookup k (child_in (bucket_in dst n) ks) <> Some (Nested c)) ->
  exists t c,
    lookup n (rb_dst (recoverBucket src commit dst n)) = Some t
    /\ lookup ks t = Some (Nested c)
    /\ lookup k c = Some (Leaf v).
Proof.
  intros Hb Hf Hn Hc Hitems Hpre Hpost Hks Hsub Hpost' Hk Hd Hdc.
  assert (Hsb : Bucket_Bucket b ks = Some sb).
  { unfold Bucket_Bucket. rewrite Hitems. now apply find_bucket_middle. }
  assert (Hpairs : ~ In ks (map key (values_of (items_of b)))).
  { rewrite Hitems, values_of_app. simpl. rewrite map_app. intros H.
    apply in_app_or in H. destruct H as [H|H]; apply values_of_keys in H; tauto. }
  pose proof (@put_each_lookup_other true [n] (values_of (items_of b))
                (bucket_in dst n) 0 ks Hpairs) as H1.
  assert (Hsubs : staged_subs b n (items_of b)
                  = staged_subs b n pre
                    ++ {| name := ks; data := values_of (items_of sb) |}
                    :: staged_subs b n post).
  { rewrite Hitems at 1. rewrite staged_subs_app. simpl. rewrite Hsb.
    destruct sb as [sitems sfin]. now rewrite recoverSubBucket_eq. }
  destruct (@write_subs_lookup_at n (staged_subs b n pre)
              {| name := ks; data := values_of (items_of sb) |}
              (staged_subs b n post)
              (fst (fst (put_each true [n] (values_of (items_of b)) (bucket_in dst n) 0)))
              (snd (fst (put_each true [n] (values_of (items_of b)) (bucket_in dst n) 0))))
    as [n' Hat]; simpl name.
  - intros H; apply staged_subs_names in H; tauto.
  - intros H; apply staged_subs_names in H; tauto.
  - exact Hks.
  - intros v0. rewrite H1. apply Hd.
  - simpl name in Hat. simpl data in Hat. rewrite <- Hsubs in Hat.
    do 2 eexists. split; [now apply recoverBucket_written with (b := b)|].
    split; [exact Hat|].
    unfold child_in at 1. rewrite H1. fold (child_in (bucket_in dst n) ks).
    rewrite Hsub, values_of_app. simpl.
    now apply (@put_each_lookup_last false [n; ks] (values_of pre')
                 {| key := k; value := v |} (values_of post')).
Qed.

Lemma sub_bucket_entry_is_recovered_witness :
  exists t c,
    lookup (B "teams")
      (rb_dst (recoverBucket src_rewritten no_commit_error dst_used (B "teams")))
    = Some t
    /\ lookup (B "members") t = Some (Nested c)
    /\ lookup (B "7") c = Some (Leaf (B "b")).
Proof.
  apply (@sub_bucket_entry_is_recovered src_rewritten no_commit_error dst_used
    (B "teams")
    (MkBucket
       [Value (B "1") (B "old");
        Marker (B "members")
          (Some (MkBucket [Value (B "7") (B "a"); Value (B "7") (B "b")]
                   (Failed "tx closed")));
        Value (B "1") (B "new")] Done)
    [Value (B "1") (B "old")] [Value (B "1") (B "new")] (B "members")
    (MkBucket [Value (B "7") (B "a"); Value (B "7") (B "b")] (Failed "tx closed"))
    [Value (B "7") (B "a")] [] (B "7") (B "b"));
    try reflexivity; try discriminate; simpl; intuition discriminate.
Defined.

(** ** Where an entry of the destination comes from *)

Lemma put_each_lookup_inv warn path ps b n k x :
  lookup k (fst (fst (put_each warn path ps b n))) = Some x ->
  lookup k b = Some x
  \/ exists v, x = Leaf v /\ In {| key := k; value := v |} ps.
Proof.
  revert b n. induction ps as [|p ps IH]; intros b n H; [now left|].
  simpl in H. destruct (Put b (key p) (value p)) as [b'|e] eqn:E.
  - specialize (IH b' (S n)).
    destruct (put_each warn path ps b' (S n)) as [[b2 n2] e2]. simpl in *.
    destruct (IH H) as [H1|(v & -> & Hin)].
    + rewrite (@Put_ok _ _ _ _ E) in H1.
      destruct (bytes_eq_dec k (key p)) as [->|Hne].
      * rewrite lookup_upsert_same in H1. injection H1 as <-.
        right. exists (value p). split; [reflexivity|]. left. now destruct p.
      * rewrite lookup_upsert_other in H1 by assumption. now left.
    + right. exists v. split; [reflexivity|now right].
  - specialize (IH b n).
    destruct (put_each warn path ps b n) as [[b2 n2] e2]. simpl in *.
    destruct (IH H) as [H1|(v & -> & Hin)]; [now left|].
    right. exists v. split; [reflexivity|now right].
Qed.

Lemma CreateBucketIfNotExists_child b nm b1 c :
  CreateBucketIfNotExists b nm = OK (b1, c) ->
  c = child_in b nm /\ forall x, upsert nm x b1 = upsert nm x b.
Proof.
  intros E. apply CreateBucketIfNotExists_ok in E. unfold child_in.
  destruct E as [[E ->]|(E & -> & ->)]; rewrite E; split; auto.
  intros x. apply upsert_upsert.
Qed.

Lemma child_in_upsert_other t nm x k :
  k <> nm -> child_in (upsert nm x t) k = child_in t k.
Proof. intros H. unfold child_in. now rewrite lookup_upsert_other. Qed.

Lemma child_in_upsert_same t nm c : child_in (upsert nm (Nested c) t) nm = c.
Proof. unfold child_in. now rewrite lookup_upsert_same. Qed.

Lemma write_subs_lookup_inv bn subs b n k x :
  lookup k (fst (fst (write_subs bn subs b n))) = Some x ->
  lookup k b = Some x
  \/ exists c,
       x = Nested c /\ In k (map name subs)
       /\ forall k' y, lookup k' c = Some y ->
            lookup k' (child_in b k) = Some y
            \/ exists sb v',
                 In sb subs /\ name sb = k /\ y = Leaf v'
                 /\ In {| key := k'; value := v' |} (data sb).
Proof.
  revert b n. induction subs as [|sb subs IH]; intros b n H; [now left|].
  rewrite write_subs_cons in H.
  destruct (CreateBucketIfNotExists b (name sb)) as [[b1 child]|e] eqn:E.
  - apply CreateBucketIfNotExists_child in E. destruct E as [-> Hu].
    pose proof (fun k' y =>
      @put_each_lookup_inv false [bn; name sb] (data sb)
        (child_in b (name sb)) n k' y) as Pinv.
    destruct (put_each false _ (data sb) (child_in b (name sb)) n)
      as [[child' n1] evs1].
    rewrite Hu in H. simpl in Pinv.
    specialize (IH (upsert (name sb) (Nested child') b) n1).
    destruct (write_subs bn subs _ n1) as [[b2 n2] e2]. simpl in H, IH.
    assert (Hchild : forall k' y, lookup k' child' = Some y ->
              lookup k' (child_in b (name sb)) = Some y
              \/ exists s v', In s (sb :: subs) /\ name s = name sb /\ y = Leaf v'
                              /\ In {| key := k'; value := v' |} (data s)).
    { intros k' y Hy. destruct (Pinv k' y Hy) as [Hc|(v' & -> & Hin)];
        [now left|]. right. exists sb, v'. repeat split; auto. now left. }
    destruct (IH H) as [H1|(c & -> & Hin & Hc)].
    + destruct (bytes_eq_dec k (name sb)) as [->|Hne].
      * rewrite lookup_upsert_same in H1. injection H1 as <-.
        right. exists child'. repeat split; [now left|exact Hchild].
      * rewrite lookup_upsert_other in H1 by assumption. now left.
    + right. exists c. repeat split; [now right|].
      intros k' y Hy. destruct (Hc k' y Hy) as [Hold|(s & v' & Hs & Hn & -> & Hd)].
      * destruct (bytes_eq_dec k (name sb)) as [->|Hne].
        -- rewrite child_in_upsert_same in Hold. now apply Hchild.
        -- rewrite child_in_upsert_other in Hold by assumption. now left.
      * right. exists s, v'. repeat split; auto. now right.
  - specialize (IH b n).
    destruct (write_subs bn subs b n) as [[b2 n2] e2]. simpl in H, IH.
    destruct (IH H) as [H1|(c & -> & Hin & Hc)]; [now left|].
    right. exists c. repeat split; [now right|].
    intros k' y Hy. destruct (Hc k' y Hy) as [Hold|(s & v' & Hs & Hn & -> & Hd)];
      [now left|].
    right. exists s, v'. repeat split; auto. now right.
Qed.

Lemma child_in_put_each warn path ps b n k k' y :
  lookup k' (child_in (fst (fst (put_each warn path ps b n))) k) = Some y ->
  lookup k' (child_in b k) = Some y.
Proof.
  unfold child_in at 1.
  destruct (lookup k (fst (fst (put_each warn path ps b n)))) as [[w|c]|] eqn:E;
    try discriminate.
  apply put_each_lookup_inv in E.
  destruct E as [E|(v & Hv & _)]; [|discriminate].
  unfold child_in. now rewrite E.
Qed.

Lemma staged_subs_In b n items s :
  In s (staged_subs b n items) ->
  exists sub, Bucket_Bucket b (name s) = Some sub
              /\ data s = values_of (items_of sub).
Proof.
  induction items as [|[k v|k h] items IH]; simpl; [contradiction|exact IH|].
  destruct (Bucket_Bucket b k) as [sub|] eqn:E; [|exact IH].
  intros [<-|Hin]; [|now apply IH].
  exists sub. simpl. split; [exact E|].
  destruct sub as [sitems sfin]. now rewrite recoverSubBucket_eq.
Qed.

Lemma write_back_lookup_cases commit dst n pairs subs log t :
  lookup n (rb_dst (write_back commit dst n pairs subs log)) = Some t ->
  t = bucket_in dst n
  \/ t = fst (fst (write_subs n subs
                     (fst (fst (put_each true [n] pairs (bucket_in dst n) 0)))
                     (snd (fst (put_each true [n] pairs (bucket_in dst n) 0))))).
Proof.
  unfold write_back, bucket_in. destruct n as [|c n].
  - intros H. left. unfold rb_dst in H. simpl in H. now rewrite H.
  - destruct (put_each _ _ _ _ _) as [[b1 n1] evs1]. simpl.
    destruct (write_subs _ _ _ _) as [[b2 n2] evs2]. simpl.
    destruct (commit (c :: n)); unfold rb_dst; simpl fst; intros H.
    + left. now rewrite H.
    + right. rewrite lookup_upsert_same in H. congruence.
Qed.

(** X3: whatever a recovered top-level bucket holds in the destination was
    there before or was yielded by the source: a value under a key is the
    value of a value entry of the source bucket with that key, a nested
    bucket is under the name of a sub-bucket the source opens, and what it
    holds was in that nested bucket before or is a value entry of that
    sub-bucket.  So a bucket new to the destination holds nothing the
    source did not yield, and its nested buckets hold values only. *)
Theorem recovery_invents_nothing
    (src : bucket) (commit : bytes -> option string) (dst : store)
    (n : bytes) (b : bucket) (t : tree) (k : bytes) (x : node) :
  Bucket_Bucket src n = Some b ->
  lookup n (rb_dst (recoverBucket src commit dst n)) = Some t ->
  lookup k t = Some x ->
  lookup k (bucket_in dst n) = Some x
  \/ (exists v, x = Leaf v /\ In (Value k v) (items_of b))
  \/ (exists c sb,
        x = Nested c /\ Bucket_Bucket b k = Some sb
        /\ forall k' y, lookup k' c = Some y ->
             lookup k' (child_in (bucket_in dst n) k) = Some y
             \/ exists v', y = Leaf v' /\ In (Value k' v') (items_of sb)).
Proof.
  intros Hb Ht Hk. rewrite recoverBucket_eq, Hb in Ht. cbv zeta in Ht.
  assert (Hcases : t = bucket_in dst n
    \/ t = fst (fst (write_subs n (staged_subs b n (items_of b))
         (fst (fst (put_each true [n] (values_of (items_of b)) (bucket_in dst n) 0)))
         (snd (fst (put_each true [n] (values_of (items_of b)) (bucket_in dst n) 0)))))).
  { destruct (fin_of b); try (now apply write_back_lookup_cases in Ht).
    left. unfold rb_dst, bucket_in in *. simpl in Ht. now rewrite Ht. }
  clear Ht. destruct Hcases as [->| ->]; [now left|].
  apply write_subs_lookup_inv in Hk.
  destruct Hk as [Hk|(c & -> & Hin & Hc)].
  - apply put_each_lookup_inv in Hk.
    destruct Hk as [Hk|(v & -> & Hv)]; [now left|].
    right. left. exists v. split; [reflexivity|]. now apply values_of_In.
  - right. right.
    apply in_map_iff in Hin. destruct Hin as (s & Hname & Hs).
    destruct (staged_subs_In _ _ _ _ Hs) as (sub & Hsub & _).
    rewrite Hname in Hsub.
    exists c, sub. repeat split; [exact Hsub|].
    intros k' y Hy.
    destruct (Hc k' y Hy) as [Hold|(s' & v' & Hs' & Hn' & -> & Hd)].
    + left. now apply child_in_put_each in Hold.
    + right. exists v'. split; [reflexivity|].
      destruct (staged_subs_In _ _ _ _ Hs') as (sub' & Hsub' & Hdata).
      rewrite Hn', Hsub in Hsub'. injection Hsub' as <-.
      rewrite Hdata in Hd. now apply values_of_In.
Qed.

Lemma recovery_invents_nothing_witness :
  lookup (B "1") (bucket_in dst_used (B "teams")) = Some (Leaf (B "new"))
  \/ (exists v, Leaf (B "new") = Leaf v
                /\ In (Value (B "1") v)
                     (items_of (MkBucket
                        [Value (B "1") (B "old");
                         Marker (B "members")
                           (Some (MkBucket [Value (B "7") (B "a"); Value (B "7") (B "b")]
                                    (Failed "tx closed")));
                         Value (B "1") (B "new")] Done)))
  \/ (exists c sb,
        Leaf (B "new") = Nested c
        /\ Bucket_Bucket (MkBucket
                        [Value (B "1") (B "old");
                         Marker (B "members")
                           (Some (MkBucket [Value (B "7") (B "a"); Value (B "7") (B "b")]
                                    (Failed "tx closed")));
                         Value (B "1") (B "new")] Done) (B "1") = Some sb
        /\ forall k' y, lookup k' c = Some y ->
             lookup k' (child_in (bucket_in dst_used (B "teams")) (B "1")) = Some y
             \/ exists v', y = Leaf v' /\ In (Value k' v') (items_of sb)).
Proof.
  apply (@recovery_invents_nothing src_rewritten no_commit_error dst_used
           (B "teams") _
           [(B "1", Leaf (B "new"));
            (B "members", Nested [(B "7", Leaf (B "b"))])]
           (B "1") (Leaf (B "new"))); reflexivity.
Defined.

(** ** A bucket is written whole or not at all *)

Lemma write_back_failed commit dst n pairs subs log :
  rb_ok (write_back commit dst n pairs subs log) = false ->
  rb_dst (write_back commit dst n pairs subs log) = dst.
Proof.
  unfold write_back. destruct n as [|c n]; [reflexivity|].
  destruct (put_each _ _ _ _ _) as [[b1 n1] evs1].
  destruct (write_subs _ _ _ _) as [[b2 n2] evs2].
  destruct (commit (c :: n)); [reflexivity|discriminate].
Qed.

Lemma write_back_succeeded commit dst n pairs subs log :
  rb_ok (write_back commit dst n pairs subs log) = true ->
  exists t, lookup n (rb_dst (write_back commit dst n pairs subs log)) = Some t.
Proof.
  unfold write_back. destruct n as [|c n]; [discriminate|].
  destruct (put_each _ _ _ _ _) as [[b1 n1] evs1].
  destruct (write_subs _ _ _ _) as [[b2 n2] evs2].
  destruct (commit (c :: n)); [discriminate|].
  intros _. exists b2. unfold rb_dst. simpl fst. apply lookup_upsert_same.
Qed.

(** X4: the write of a top-level bucket is all or nothing.  When
    [recoverBucket] answers [ok = false] (the enumeration panicked, the
    name was refused or the commit failed) the destination is exactly as
    it was, whatever was staged or counted; when it answers [ok = true]
    the destination holds a bucket of that name; and in both cases every
    other bucket of the destination is as it was. *)
Theorem bucket_is_written_whole_or_not_at_all
    (src : bucket) (commit : bytes -> option string) (dst : store) (n : bytes) :
  (rb_ok (recoverBucket src commit dst n) = false ->
   rb_dst (recoverBucket src commit dst n) = dst)
  /\ (rb_ok (recoverBucket src commit dst n) = true ->
      exists t, lookup n (rb_dst (recoverBucket src commit dst n)) = Some t)
  /\ (forall m, m <> n ->
        lookup m (rb_dst (recoverBucket src commit dst n)) = lookup m dst).
Proof.
  split; [|split].
  - rewrite recoverBucket_eq.
    destruct (Bucket_Bucket src n) as [b|]; [|apply write_back_failed].
    cbv zeta. destruct (fin_of b); try apply write_back_failed. reflexivity.
  - rewrite recoverBucket_eq.
    destruct (Bucket_Bucket src n) as [b|]; [|apply write_back_succeeded].
    cbv zeta. destruct (fin_of b); try apply write_back_succeeded. discriminate.
  - intros m Hm. now apply recoverBucket_frame.
Qed.

Lemma recover_all_frame src commit names dst t f m :
  ~ In m names ->
  lookup m (ra_dst (recover_all src commit names dst t f)) = lookup m dst.
Proof.
  revert dst t f. induction names as [|n names IH]; intros dst t f Hm;
    [reflexivity|].
  simpl. pose proof (@recoverBucket_frame src commit dst n m) as F.
  destruct (recoverBucket src commit dst n) as [[[d1 e1] k] ok].
  specialize (IH d1 (t + k) (if ok then f else S f)).
  destruct (recover_all src commit names d1 _ _) as [[[d' e'] t'] f'].
  unfold ra_dst, rb_dst in *. simpl in *.
  rewrite IH by tauto. apply F. intros ->. tauto.
Qed.

(** X5: a run leaves alone every bucket of the destination whose name the
    source does not list: it is there at the end with the contents it had
    when the destination was opened. *)
Theorem unlisted_buckets_are_untouched
    (w : world) (src : bucket) (dst : store) (m : bytes) :
  List.length (args w) = 3 -> open_src w = OK src -> open_dst w = OK dst ->
  ~ In m (bucket_names src) ->
  exists d, dest (main w) = Some d /\ lookup m d = lookup m dst.
Proof.
  intros Ha Hs Hd Hm. rewrite (main_eq w Ha Hs Hd).
  destruct (fin_of src); try (exists dst; now split).
  pose proof (@recover_all_frame src (commit_error w) (bucket_names src) dst 0 0 m Hm) as F.
  destruct (recover_all _ _ _ _ _ _) as [[[d' log] total] failed].
  exists d'. split; [reflexivity|exact F].
Qed.

Lemma unlisted_buckets_are_untouched_witness :
  exists d, dest (main world_rewritten) = Some d
            /\ lookup (B "kept") d = lookup (B "kept") dst_used.
Proof.
  apply (@unlisted_buckets_are_untouched world_rewritten src_rewritten dst_used
           (B "kept")); try reflexivity.
  simpl. intros [H|[]]. discriminate H.
Defined.

(** ** The order of the visit and the summary *)

Lemma announced_app l1 l2 : announced (l1 ++ l2) = announced l1 ++ announced l2.
Proof.
  induction l1 as [|e l1 IH]; [reflexivity|].
  destruct e; simpl; rewrite IH; reflexivity.
Qed.

Lemma announced_staged_log b n items : announced (staged_log b n items) = [].
Proof.
  induction items as [|[k v|k h] items IH]; simpl; auto.
  destruct (Bucket_Bucket b k) as [[sitems sfin]|]; [|exact IH].
  rewrite announced_app, IH, recoverSubBucket_eq. now destruct sfin.
Qed.

Lemma announced_put_each warn path ps b n :
  announced (snd (put_each warn path ps b n)) = [].
Proof.
  revert b n. induction ps as [|p ps IH]; intros b n; [reflexivity|].
  simpl. destruct (Put b (key p) (value p)) as [b'|e].
  - specialize (IH b' (S n)).
    now destruct (put_each warn path ps b' (S n)) as [[b2 n2] e2].
  - specialize (IH b n).
    destruct (put_each warn path ps b n) as [[b2 n2] e2]. simpl in *.
    rewrite announced_app, IH. now destruct warn.
Qed.

Lemma announced_write_subs bn subs b n :
  announced (snd (write_subs bn subs b n)) = [].
Proof.
  revert b n. induction subs as [|sb subs IH]; intros b n; [reflexivity|].
  rewrite write_subs_cons.
  destruct (CreateBucketIfNotExists b (name sb)) as [[b1 child]|e].
  - pose proof (announced_put_each false [bn; name sb] (data sb) child n) as P.
    destruct (put_each false _ (data sb) child n) as [[child' n1] evs1].
    specialize (IH (upsert (name sb) (Nested child') b1) n1).
    destruct (write_subs bn subs _ n1) as [[b2 n2] e2]. simpl in *.
    now rewrite announced_app, P, IH.
  - specialize (IH b n).
    now destruct (write_subs bn subs b n) as [[b2 n2] e2].
Qed.

Lemma announced_write_back commit dst n pairs subs log :
  announced (rb_log (write_back commit dst n pairs subs log)) = announced log.
Proof.
  unfold write_back. destruct n as [|c n].
  - unfold rb_log. simpl. rewrite announced_app. simpl. apply app_nil_r.
  - match goal with |- context [put_each true ?p pairs ?t 0] =>
      pose proof (announced_put_each true p pairs t 0) as P;
      destruct (put_each true p pairs t 0) as [[b1 n1] evs1]
    end.
    match goal with |- context [write_subs ?m subs b1 n1] =>
      pose proof (announced_write_subs m subs b1 n1) as Q;
      destruct (write_subs m subs b1 n1) as [[b2 n2] evs2]
    end.
    simpl in P, Q.
    destruct (commit (c :: n)); unfold rb_log; simpl;
      rewrite !announced_app, P, Q; simpl; apply app_nil_r.
Qed.

Lemma announced_recoverBucket src commit dst n :
  announced (rb_log (recoverBucket src commit dst n)) = [n].
Proof.
  rewrite recoverBucket_eq.
  destruct (Bucket_Bucket src n) as [b|].
  - cbv zeta. destruct (fin_of b).
    + rewrite announced_write_back. simpl. now rewrite announced_staged_log.
    + rewrite announced_write_back. simpl.
      now rewrite announced_app, announced_staged_log.
    + unfold rb_log. simpl. now rewrite announced_app, announced_staged_log.
  - now rewrite announced_write_back.
Qed.

Lemma announced_recover_all src commit names dst t f :
  announced (ra_log (recover_all src commit names dst t f)) = names.
Proof.
  revert dst t f. induction names as [|n names IH]; intros dst t f;
    [reflexivity|].
  simpl. pose proof (announced_recoverBucket src commit dst n) as A.
  destruct (recoverBucket src commit dst n) as [[[d1 e1] k] ok].
  specialize (IH d1 (t + k) (if ok then f else S f)).
  destruct (recover_all src commit names d1 _ _) as [[[d' e'] t'] f'].
  unfold ra_log, rb_log in *. simpl in *.
  now rewrite announced_app, A, IH.
Qed.

(** X6: once both stores are open and the listing has ended normally, the
    run visits the top-level buckets in the order the source lists them,
    each listed name once, however the enumeration of each bucket and of
    each sub-bucket ends: normally, with an error, or with a panic that
    [recover()] catches.  The [Recovering] lines of the output spell the
    listing. *)
Theorem buckets_are_visited_in_listing_order
    (w : world) (src : bucket) (dst : store) :
  List.length (args w) = 3 -> open_src w = OK src -> open_dst w = OK dst ->
  fin_of src = Done ->
  announced (output (main w)) = map item_key (items_of src).
Proof.
  intros Ha Hs Hd Hf. rewrite (main_eq w Ha Hs Hd), Hf.
  pose proof (announced_recover_all src (commit_error w) (bucket_names src) dst 0 0) as A.
  destruct (recover_all _ _ _ _ _ _) as [[[d' log] total] failed].
  unfold ra_log in A. simpl in A. cbn [output announced].
  rewrite announced_app, A. simpl. apply app_nil_r.
Qed.

Lemma buckets_are_visited_in_listing_order_witness :
  announced (output (main world_ab)) = [B "a"; B "b"].
Proof.
  apply (@buckets_are_visited_in_listing_order world_ab src_ab []);
    reflexivity.
Defined.

(** X7: when the run ends with a summary line, the bucket count printed
    is the number of names listed, the count of buckets with errors is the
    number of listed names whose enumeration panicked or whose write
    transaction returned an error, it does not exceed the bucket count,
    and the exit status is 0 exactly when it is 0. *)
Theorem summary_counts_failed_buckets (w : world) (t f k : nat) :
  last (output (main w)) Usage = Summary t f k ->
  exists src,
    open_src w = OK src
    /\ k = List.length (bucket_names src)
    /\ f = List.length
             (filter (fun n => negb (bucket_succeeds src (commit_error w) n))
                     (bucket_names src))
    /\ f <= k
    /\ (exit_status (main w) = 0 <-> f = 0).
Proof.
  intros H.
  destruct (Nat.eq_dec (List.length (args w)) 3) as [Ha|Ha].
  - destruct (open_src w) as [src|e] eqn:Hs.
    + destruct (open_dst w) as [dst|e] eqn:Hd.
      * rewrite (main_eq w Ha Hs Hd) in *.
        destruct (fin_of src); try discriminate H.
        pose proof (recover_all_failed src (commit_error w) (bucket_names src) dst 0 0) as F.
        destruct (recover_all _ _ _ _ _ _) as [[[d' log] total] failed].
        cbn [output exit_status] in *. simpl in F.
        change (Found ?x :: ?l ++ ?y) with ((Found x :: l) ++ y) in H.
        rewrite last_snoc in H. injection H as Ht Hf Hk. subst t f k.
        exists src. split; [reflexivity|]. split; [reflexivity|].
        split; [exact F|]. split; [rewrite F; apply filter_length_le|].
        destruct failed; simpl; split; congruence.
      * unfold main in H. rewrite Ha, Hs, Hd in H. discriminate H.
    + unfold main in H. rewrite Ha, Hs in H. discriminate H.
  - unfold main in H. apply Nat.eqb_neq in Ha. rewrite Ha in H. discriminate H.
Qed.

Lemma summary_counts_failed_buckets_witness :
  exists src,
    open_src world_ab = OK src
    /\ 2 = List.length (bucket_names src)
    /\ 1 = List.length
             (filter (fun n => negb (bucket_succeeds src (commit_error world_ab) n))
                     (bucket_names src))
    /\ 1 <= 2
    /\ (exit_status (main world_ab) = 0 <-> 1 = 0).
Proof.
  apply (@summary_counts_failed_buckets world_ab 2 1 2). reflexivity.
Defined.

(** ** The key count of a bucket *)

Lemma put_each_bound warn path ps b n :
  snd (fst (put_each warn path ps b n)) <= n + List.length ps.
Proof.
  revert b n. induction ps as [|p ps IH]; intros b n; simpl; [lia|].
  destruct (Put b (key p) (value p)) as [b'|e].
  - specialize (IH b' (S n)).
    destruct (put_each warn path ps b' (S n)) as [[b2 n2] e2]. simpl in *. lia.
  - specialize (IH b n).
    destruct (put_each warn path ps b n) as [[b2 n2] e2]. simpl in *. lia.
Qed.

Lemma write_subs_bound bn subs b n :
  snd (fst (write_subs bn subs b n))
  <= n + list_sum (map (fun sb => List.length (data sb)) subs).
Proof.
  revert b n. induction subs as [|sb subs IH]; intros b n; [simpl; lia|].
  rewrite write_subs_cons.
  destruct (CreateBucketIfNotExists b (name sb)) as [[b1 child]|e].
  - pose proof (put_each_bound false [bn; name sb] (data sb) child n) as P.
    destruct (put_each false _ (data sb) child n) as [[child' n1] evs1].
    specialize (IH (upsert (name sb) (Nested child') b1) n1).
    destruct (write_subs bn subs _ n1) as [[b2 n2] e2]. simpl in *. lia.
  - specialize (IH b n).
    destruct (write_subs bn subs b n) as [[b2 n2] e2]. simpl in *. lia.
Qed.

Lemma write_back_bound commit dst n pairs subs log :
  rb_keys (write_back commit dst n pairs subs log) <= staged_total pairs subs
  /\ (rb_ok (write_back commit dst n pairs subs log) = true ->
      last (rb_log (write_back commit dst n pairs subs log)) Usage
      = BucketOK (List.length pairs) (List.length subs)).
Proof.
  unfold write_back, staged_total. destruct n as [|c n].
  - unfold rb_keys, rb_ok. simpl. split; [lia|discriminate].
  - match goal with |- context [put_each true ?p pairs ?t 0] =>
      pose proof (put_each_bound true p pairs t 0) as P;
      destruct (put_each true p pairs t 0) as [[b1 n1] evs1]
    end.
    match goal with |- context [write_subs ?m subs b1 n1] =>
      pose proof (write_subs_bound m subs b1 n1) as Q;
      destruct (write_subs m subs b1 n1) as [[b2 n2] evs2]
    end.
    simpl in P, Q.
    destruct (commit (c :: n)); unfold rb_keys, rb_ok, rb_log; simpl;
      (split; [lia|]); [discriminate|].
    intros _. rewrite !app_assoc. apply last_snoc.
Qed.

(** X8: the key count [recoverBucket] returns never exceeds the number of
    pairs staged for the bucket and its sub-buckets; it is 0 when the
    enumeration of the bucket panicked; and on success the [OK] line
    reports the numbers of pairs and of sub-buckets staged for the bucket
    itself, not what was written. *)
Theorem recovered_keys_are_bounded_by_staged
    (src : bucket) (commit : bytes -> option string) (dst : store) (n : bytes) :
  rb_keys (recoverBucket src commit dst n)
  <= staged_total (pairs_of src n) (subs_of src n)
  /\ (unwinds src n = true -> rb_keys (recoverBucket src commit dst n) = 0)
  /\ (rb_ok (recoverBucket src commit dst n) = true ->
      last (rb_log (recoverBucket src commit dst n)) Usage
      = BucketOK (List.length (pairs_of src n)) (List.length (subs_of src n))).
Proof.
  rewrite recoverBucket_eq. unfold pairs_of, subs_of, unwinds.
  destruct (Bucket_Bucket src n) as [b|].
  - cbv zeta. destruct (fin_of b).
    + destruct (write_back_bound commit dst n (values_of (items_of b))
                  (staged_subs b n (items_of b))
                  (Recovering n :: staged_log b n (items_of b))) as [H1 H2].
      split; [exact H1|]. split; [discriminate|exact H2].
    + destruct (write_back_bound commit dst n (values_of (items_of b))
                  (staged_subs b n (items_of b))
                  ((Recovering n :: staged_log b n (items_of b))
                     ++ [ReadError n e])) as [H1 H2].
      split; [exact H1|]. split; [discriminate|exact H2].
    + unfold rb_keys, rb_ok. simpl. split; [lia|]. split; [reflexivity|discriminate].
  - destruct (write_back_bound commit dst n [] []
                [Recovering n; ReadError n "bucket not found"]) as [H1 H2].
    split; [exact H1|]. split; [discriminate|exact H2].
Qed.

(** ** Runs that end before the first bucket *)

(** X9: a run that ends before the loop, because the arguments are not
    two, a store does not open, or the listing of the source returns an
    error or panics, exits with a nonzero status, visits no bucket and
    writes nothing: the destination is as it was opened, and it is not
    opened at all when the arguments are wrong or the source does not
    open. *)
Theorem fatal_exit_writes_nothing (w : world) :
  (List.length (args w) <> 3
   \/ (exists e, open_src w = Err e)
   \/ (exists e, open_dst w = Err e)
   \/ (exists src, open_src w = OK src /\ fin_of src <> Done)) ->
  exit_status (main w) <> 0
  /\ announced (output (main w)) = []
  /\ wrote_count (output (main w)) = 0
  /\ (forall d, dest (main w) = Some d -> open_dst w = OK d)
  /\ (List.length (args w) <> 3 \/ (exists e, open_src w = Err e) ->
      dest (main w) = None).
Proof.
  intros H.
  destruct (Nat.eq_dec (List.length (args w)) 3) as [Ha|Ha].
  - destruct (open_src w) as [src|e] eqn:Hs.
    + destruct (open_dst w) as [dst|e] eqn:Hd.
      * rewrite (main_eq w Ha Hs Hd).
        destruct H as [H|[[e H]|[[e H]|(s & Hs' & Hf)]]]; try congruence.
        injection Hs' as <-.
        destruct (fin_of src); [congruence| |]; simpl;
          (repeat split; try discriminate; try reflexivity;
           try (intros d Hdd; congruence));
          intros [Hc|[e' Hc]]; congruence.
      * unfold main. rewrite Ha, Hs, Hd. simpl.
        repeat split; try discriminate; reflexivity.
    + unfold main. rewrite Ha, Hs. simpl.
      repeat split; try discriminate; reflexivity.
  - unfold main. apply Nat.eqb_neq in Ha. rewrite Ha. simpl.
    repeat split; try discriminate; reflexivity.
Qed.

Lemma fatal_exit_writes_nothing_witness :
  exit_status (main {| args := ["recover_bolt"; "portainer.db"];
                       open_src := OK src_ab; open_dst := OK dst_used;
                       commit_error := no_commit_error |}) <> 0
  /\ dest (main {| args := ["recover_bolt"; "portainer.db"];
                   open_src := OK src_ab; open_dst := OK dst_used;
                   commit_error := no_commit_error |}) = None.
Proof.
  destruct (@fatal_exit_writes_nothing
              {| args := ["recover_bolt"; "portainer.db"];
                 open_src := OK src_ab; open_dst := OK dst_used;
                 commit_error := no_commit_error |})
    as (H1 & _ & _ & _ & H5).
  - left. simpl. discriminate.
  - split; [exact H1|]. apply H5. left. simpl. discriminate.
Defined.

(** ** Errors returned inside a sub-bucket *)

Lemma quiet_same sb p : recoverSubBucket (quiet sb) p = recoverSubBucket sb p.
Proof.
  destruct sb as [items fin]. unfold quiet. simpl.
  destruct fin; rewrite ?recoverSubBucket_eq; reflexivity.
Qed.

(** X10: an error that the enumeration of a sub-bucket returns (rather
    than panics with) is dropped without a trace: the sub-bucket keeps the
    pairs yielded before it, nothing is printed for it, and the whole run
    ends with the same exit status, output and destination as on the
    source in which those enumerations end normally. *)
Theorem sub_bucket_error_is_dropped
    (es : list item) (e : string) (parentName : bytes)
    (a : list string) (src : bucket) (d : result store)
    (c : bytes -> option string) :
  recoverSubBucket (MkBucket es (Failed e)) parentName = (values_of es, [])
  /\ main {| args := a; open_src := OK src; open_dst := d; commit_error := c |}
     = main {| args := a; open_src := OK (map_subs (map_subs quiet) src);
               open_dst := d; commit_error := c |}.
Proof.
  split; [apply recoverSubBucket_eq|].
  symmetry. apply main_map_subs; intros sb p; now rewrite quiet_same.
Qed.

(** ** Recovering twice *)

Lemma put_each_tree warn path ps b n :
  fst (fst (put_each warn path ps b n)) = puts ps b.
Proof.
  unfold puts. revert b n. generalize 0.
  induction ps as [|p ps IH]; intros m b n; [reflexivity|].
  simpl. destruct (Put b (key p) (value p)) as [b'|e].
  - specialize (IH (S m) b' (S n)).
    destruct (put_each warn path ps b' (S n)) as [[b2 n2] e2].
    destruct (put_each false [] ps b' (S m)) as [[b3 n3] e3]. exact IH.
  - specialize (IH m b n).
    destruct (put_each warn path ps b n) as [[b2 n2] e2].
    destruct (put_each false [] ps b m) as [[b3 n3] e3]. exact IH.
Qed.

Lemma puts_cons p ps b :
  puts (p :: ps) b
  = match Put b (key p) (value p) with
    | OK b' => puts ps b'
    | Err _ => puts ps b
    end.
Proof.
  unfold puts at 1. simpl.
  destruct (Put b (key p) (value p)) as [b'|e].
  - rewrite <- (put_each_tree false [] ps b' 1).
    now destruct (put_each false [] ps b' 1) as [[b2 n2] e2].
  - rewrite <- (put_each_tree false [] ps b 0).
    now destruct (put_each false [] ps b 0) as [[b2 n2] e2].
Qed.

Lemma puts_app l1 l2 b : puts (l1 ++ l2) b = puts l2 (puts l1 b).
Proof.
  revert b. induction l1 as [|p l1 IH]; intros b; [reflexivity|].
  simpl app. rewrite !puts_cons.
  destruct (Put b (key p) (value p)); apply IH.
Qed.

Lemma puts_lookup ps b k :
  lookup k (puts ps b) = after_pairs ps k (lookup k b).
Proof.
  revert b. induction ps as [|p ps IH]; intros b.
  - change (puts [] b) with b. unfold after_pairs. simpl.
    now destruct (lookup k b) as [[v|c]|].
  - rewrite puts_cons. unfold Put.
    destruct (put_check (key p) (value p)) as [e|] eqn:Hc.
    + rewrite IH. unfold after_pairs. simpl. rewrite Hc.
      destruct (last_put ps k); [reflexivity|].
      now destruct (bytes_eqb (key p) k).
    + destruct (lookup (key p) b) as [[w|c]|] eqn:Hl.
      * rewrite IH. unfold after_pairs. simpl. rewrite Hc.
        eqb_cases (key p) k.
        -- subst k. rewrite lookup_upsert_same, Hl.
           now destruct (last_put ps (key p)).
        -- rewrite lookup_upsert_other by congruence.
           destruct (lookup k b) as [[w'|c']|]; now destruct (last_put ps k).
      * rewrite IH. unfold after_pairs. simpl. rewrite Hc.
        eqb_cases (key p) k.
        -- subst k. now rewrite Hl.
        -- destruct (lookup k b) as [[w'|c']|]; now destruct (last_put ps k).
      * rewrite IH. unfold after_pairs. simpl. rewrite Hc.
        eqb_cases (key p) k.
        -- subst k. rewrite lookup_upsert_same, Hl.
           now destruct (last_put ps (key p)).
        -- rewrite lookup_upsert_other by congruence.
           destruct (lookup k b) as [[w'|c']|]; now destruct (last_put ps k).
Qed.

Lemma after_pairs_idem ps k o :
  after_pairs ps k (after_pairs ps k o) = after_pairs ps k o.
Proof.
  unfold after_pairs.
  destruct o as [[v|c]|]; destruct (last_put ps k) eqn:E; simpl;
    rewrite ?E; reflexivity.
Qed.

Lemma puts_idem ps b k : lookup k (puts ps (puts ps b)) = lookup k (puts ps b).
Proof. rewrite !puts_lookup. apply after_pairs_idem. Qed.

Lemma CreateBucketIfNotExists_accepts b nm b1 c :
  CreateBucketIfNotExists b nm = OK (b1, c) ->
  nm <> [] /\ forall v, lookup nm b <> Some (Leaf v).
Proof.
  unfold CreateBucketIfNotExists. destruct nm as [|x nm]; [discriminate|].
  destruct (lookup (x :: nm) b) as [[w|t]|]; [discriminate| |];
    intros _; split; discriminate.
Qed.

Lemma write_subs_lookup_eq bn subs b n k :
  lookup k (fst (fst (write_subs bn subs b n))) = after_subs subs k (lookup k b).
Proof.
  revert b n. induction subs as [|sb subs IH]; intros b n.
  - unfold after_subs. simpl.
    destruct k; [reflexivity|]. now destruct (lookup _ b) as [[v|c]|].
  - rewrite write_subs_cons.
    destruct (CreateBucketIfNotExists b (name sb)) as [[b1 child]|e] eqn:E.
    + destruct (CreateBucketIfNotExists_accepts _ _ E) as [Hne Hnl].
      apply CreateBucketIfNotExists_child in E. destruct E as [-> Hu].
      pose proof (put_each_tree false [bn; name sb] (data sb)
                    (child_in b (name sb)) n) as T.
      destruct (put_each false _ (data sb) (child_in b (name sb)) n)
        as [[child' n1] evs1].
      simpl in T. subst child'. rewrite Hu.
      specialize (IH (upsert (name sb)
                        (Nested (puts (data sb) (child_in b (name sb)))) b) n1).
      destruct (write_subs bn subs _ n1) as [[b2 n2] e2]. simpl in *.
      rewrite IH. clear IH.
      unfold after_subs, mentions. simpl.
      eqb_cases (name sb) k.
      * subst k. rewrite lookup_upsert_same. unfold child_in.
        destruct (name sb) as [|x nm]; [congruence|].
        destruct (lookup (x :: nm) b) as [[v|c]|];
          [now destruct (Hnl v)| |]; simpl; now rewrite puts_app.
      * rewrite lookup_upsert_other by congruence. reflexivity.
    + specialize (IH b n).
      destruct (write_subs bn subs b n) as [[b2 n2] e2]. simpl in *.
      rewrite IH. clear IH.
      unfold after_subs, mentions. simpl.
      eqb_cases (name sb) k; [|reflexivity].
      subst k. unfold CreateBucketIfNotExists in E.
      destruct (name sb) as [|x nm]; [reflexivity|].
      destruct (lookup (x :: nm) b) as [[v|c]|]; try discriminate. reflexivity.
Qed.

Lemma same_node_refl o : same_node o o.
Proof. destruct o as [[v|c]|]; simpl; auto. Qed.

(** The two loops, run again on what they left, leave every key as it
    is. *)
Lemma after_idem ps subs k o :
  same_node
    (after_subs subs k (after_pairs ps k (after_subs subs k (after_pairs ps k o))))
    (after_subs subs k (after_pairs ps k o)).
Proof.
  unfold after_subs, after_pairs.
  destruct k as [|x k].
  - destruct o as [[v|c]|]; destruct (last_put ps []) eqn:E; simpl;
      rewrite ?E; simpl; auto.
  - set (kk := x :: k).
    destruct o as [[v|c]|]; destruct (last_put ps kk) eqn:E; simpl;
      rewrite ?E; simpl; auto; try (intros k'; apply puts_idem).
    destruct (mentions subs kk); simpl; rewrite ?E; simpl; auto.
    intros k'. apply puts_idem.
Qed.

Lemma write_back_lookup commit dst n pairs subs log k :
  rb_ok (write_back commit dst n pairs subs log) = true ->
  lookup k (bucket_in (rb_dst (write_back commit dst n pairs subs log)) n)
  = after_subs subs k (after_pairs pairs k (lookup k (bucket_in dst n))).
Proof.
  unfold write_back. destruct n as [|c n]; [discriminate|].
  match goal with |- context [put_each true ?p pairs ?t 0] =>
    pose proof (put_each_tree true p pairs t 0) as P;
    destruct (put_each true p pairs t 0) as [[b1 n1] evs1]
  end.
  match goal with |- context [write_subs ?m subs b1 n1] =>
    pose proof (write_subs_lookup_eq m subs b1 n1 k) as Q;
    destruct (write_subs m subs b1 n1) as [[b2 n2] evs2]
  end.
  simpl in P, Q. subst b1.
  destruct (commit (c :: n)); [discriminate|]. intros _.
  unfold rb_dst. simpl fst. unfold bucket_in at 1.
  rewrite lookup_upsert_same, Q, puts_lookup. reflexivity.
Qed.

Lemma recoverBucket_lookup src commit dst n k :
  rb_ok (recoverBucket src commit dst n) = true ->
  lookup k (bucket_in (rb_dst (recoverBucket src commit dst n)) n)
  = after_subs (subs_of src n) k
      (after_pairs (pairs_of src n) k (lookup k (bucket_in dst n))).
Proof.
  rewrite recoverBucket_eq. unfold pairs_of, subs_of.
  destruct (Bucket_Bucket src n) as [b|]; [|apply write_back_lookup].
  cbv zeta. destruct (fin_of b); try apply write_back_lookup. discriminate.
Qed.

Lemma recoverBucket_failed src commit dst n :
  rb_ok (recoverBucket src commit dst n) = false ->
  rb_dst (recoverBucket src commit dst n) = dst.
Proof.
  rewrite recoverBucket_eq.
  destruct (Bucket_Bucket src n) as [b|]; [|apply write_back_failed].
  cbv zeta. destruct (fin_of b); try apply write_back_failed. reflexivity.
Qed.

Lemma recoverBucket_succeeded src commit dst n :
  rb_ok (recoverBucket src commit dst n) = true ->
  exists t, lookup n (rb_dst (recoverBucket src commit dst n)) = Some t.
Proof.
  rewrite recoverBucket_eq.
  destruct (Bucket_Bucket src n) as [b|]; [|apply write_back_succeeded].
  cbv zeta. destruct (fin_of b); try apply write_back_succeeded. discriminate.
Qed.

Lemma recoverBucket_again src commit dst n :
  (lookup n (rb_dst (recoverBucket src commit
                       (rb_dst (recoverBucket src commit dst n)) n)) = None
   <-> lookup n (rb_dst (recoverBucket src commit dst n)) = None)
  /\ forall k,
       same_node
         (lookup k (bucket_in (rb_dst (recoverBucket src commit
                       (rb_dst (recoverBucket src commit dst n)) n)) n))
         (lookup k (bucket_in (rb_dst (recoverBucket src commit dst n)) n)).
Proof.
  pose proof (recoverBucket_ok src commit dst n) as O1.
  pose proof (recoverBucket_ok src commit
                (rb_dst (recoverBucket src commit dst n)) n) as O2.
  destruct (bucket_succeeds src commit n).
  - destruct (recoverBucket_succeeded _ _ _ _ O1) as [t1 H1].
    destruct (recoverBucket_succeeded _ _ _ _ O2) as [t2 H2].
    split; [rewrite H1, H2; split; discriminate|].
    intros k. rewrite (recoverBucket_lookup _ _ _ _ k O2).
    rewrite (recoverBucket_lookup _ _ _ _ k O1). apply after_idem.
  - rewrite (recoverBucket_failed _ _ _ _ O2).
    split; [reflexivity|]. intros k. apply same_node_refl.
Qed.

(** X11: recovering a top-level bucket a second time, into what the first
    recovery left, changes nothing: it succeeds or fails as the first
    did, every key of the bucket and of its nested buckets holds what it
    held, and the other buckets of the destination are not touched. *)
Theorem second_recovery_changes_nothing
    (src : bucket) (commit : bytes -> option string) (dst : store) (n : bytes) :
  let d1 := rb_dst (recoverBucket src commit dst n) in
  let d2 := rb_dst (recoverBucket src commit d1 n) in
  rb_ok (recoverBucket src commit d1 n) = rb_ok (recoverBucket src commit dst n)
  /\ (forall m, m <> n -> lookup m d2 = lookup m d1)
  /\ (lookup n d2 = None <-> lookup n d1 = None)
  /\ forall k, same_node (lookup k (bucket_in d2 n)) (lookup k (bucket_in d1 n)).
Proof.
  intros d1 d2. split; [now rewrite !recoverBucket_ok|].
  split; [intros m Hm; now apply recoverBucket_frame|].
  apply recoverBucket_again.
Qed.

Lemma recover_all_lookup src commit names dst t f n :
  NoDup names -> In n names ->
  lookup n (ra_dst (recover_all src commit names dst t f))
  = lookup n (rb_dst (recoverBucket src commit dst n)).
Proof.
  intros Hnd. revert dst t f.
  induction names as [|m names IH]; intros dst t f Hn; [contradiction|].
  inversion Hnd as [|x l Hx Hnd']; subst.
  simpl.
  pose proof (@recover_all_frame src commit names
                (rb_dst (recoverBucket src commit dst m))) as F.
  pose proof (@recoverBucket_frame src commit dst m n) as G.
  destruct (recoverBucket src commit dst m) as [[[d1 e1] k] ok] eqn:R.
  specialize (IH Hnd' d1 (t + k) (if ok then f else S f)).
  specialize (F (t + k) (if ok then f else S f)).
  unfold rb_dst in F, G. simpl in F, G.
  destruct (recover_all src commit names d1 _ _) as [[[d' e'] t'] f'].
  unfold ra_dst, rb_dst in *. simpl in *.
  destruct Hn as [->|Hn].
  - rewrite R. simpl. now apply F.
  - rewrite (IH Hn). apply recoverBucket_local. apply G. intros ->. contradiction.
Qed.

(** X12: running the program a second time on the same source, into the
    destination the first run left, changes nothing when the source lists
    no bucket name twice: the exit status is the same, no bucket appears
    or disappears, and every key of every bucket and of its nested buckets
    holds what it held after the first run. *)
Theorem second_run_changes_nothing
    (w : world) (src : bucket) (dst d1 : store) :
  List.length (args w) = 3 -> open_src w = OK src -> open_dst w = OK dst ->
  NoDup (bucket_names src) -> dest (main w) = Some d1 ->
  let w' := {| args := args w; open_src := OK src; open_dst := OK d1;
               commit_error := commit_error w |} in
  exists d2,
    dest (main w') = Some d2
    /\ exit_status (main w') = exit_status (main w)
    /\ forall m,
         (lookup m d2 = None <-> lookup m d1 = None)
         /\ forall k,
              same_node (lookup k (bucket_in d2 m)) (lookup k (bucket_in d1 m)).
Proof.
  intros Ha Hs Hd Hnd H1 w'.
  rewrite (main_eq w Ha Hs Hd) in *.
  rewrite (main_eq w' (src := src) (dst := d1) Ha eq_refl eq_refl).
  simpl commit_error.
  destruct (fin_of src).
  - pose proof (recover_all_failed src (commit_error w) (bucket_names src) dst 0 0) as F1.
    pose proof (recover_all_failed src (commit_error w) (bucket_names src) d1 0 0) as F2.
    pose proof (fun m => @recover_all_frame src (commit_error w) (bucket_names src) dst 0 0 m) as G1.
    pose proof (fun m => @recover_all_frame src (commit_error w) (bucket_names src) d1 0 0 m) as G2.
    pose proof (fun m => @recover_all_lookup src (commit_error w) (bucket_names src) dst 0 0 m Hnd) as L1.
    pose proof (fun m => @recover_all_lookup src (commit_error w) (bucket_names src) d1 0 0 m Hnd) as L2.
    destruct (recover_all src (commit_error w) (bucket_names src) dst 0 0)
      as [[[e1 l1] t1] f1].
    destruct (recover_all src (commit_error w) (bucket_names src) d1 0 0)
      as [[[e2 l2] t2] f2].
    unfold ra_dst in *. simpl in F1, F2, G1, G2, L1, L2, H1.
    injection H1 as ->.
    exists e2. split; [reflexivity|].
    split; [cbn [exit_status]; rewrite F1, F2; reflexivity|].
    intros m. destruct (in_dec bytes_eq_dec m (bucket_names src)) as [Hin|Hout].
    + assert (E2 : lookup m e2
                   = lookup m (rb_dst (recoverBucket src (commit_error w)
                        (rb_dst (recoverBucket src (commit_error w) dst m)) m))).
      { rewrite (L2 m Hin). apply recoverBucket_local. now apply L1. }
      destruct (recoverBucket_again src (commit_error w) dst m) as [A1 A2].
      unfold bucket_in. rewrite E2, (L1 m Hin). split; [exact A1|exact A2].
    + unfold bucket_in. rewrite (G2 m Hout).
      split; [reflexivity|]. intros k. apply same_node_refl.
  - injection H1 as <-. exists dst. split; [reflexivity|]. split; [reflexivity|].
    intros m. split; [reflexivity|]. intros k. apply same_node_refl.
  - injection H1 as <-. exists dst. split; [reflexivity|]. split; [reflexivity|].
    intros m. split; [reflexivity|]. intros k. apply same_node_refl.
Qed.

Lemma second_run_changes_nothing_witness :
  exists d2,
    dest (main {| args := args world_rewritten; open_src := OK src_rewritten;
                  open_dst :=
                    OK [(B "kept", [(B "k", Leaf (B "v"))]);
                        (B "teams",
                         [(B "1", Leaf (B "new"));
                          (B "members", Nested [(B "7", Leaf (B "b"))])])];
                  commit_error := commit_error world_rewritten |}) = Some d2
    /\ exit_status (main {| args := args world_rewritten;
                            open_src := OK src_rewritten;
                            open_dst :=
                              OK [(B "kept", [(B "k", Leaf (B "v"))]);
                                  (B "teams",
                                   [(B "1", Leaf (B "new"));
                                    (B "members", Nested [(B "7", Leaf (B "b"))])])];
                            commit_error := commit_error world_rewritten |})
       = exit_status (main world_rewritten)
    /\ forall m,
         (lookup m d2 = None
          <-> lookup m [(B "kept", [(B "k", Leaf (B "v"))]);
                        (B "teams",
                         [(B "1", Leaf (B "new"));
                          (B "members", Nested [(B "7", Leaf (B "b"))])])] = None)
         /\ forall k,
              same_node (lookup k (bucket_in d2 m))
                (lookup k (bucket_in
                   [(B "kept", [(B "k", Leaf (B "v"))]);
                    (B "teams",
                     [(B "1", Leaf (B "new"));
                      (B "members", Nested [(B "7", Leaf (B "b"))])])] m)).
Proof.
  apply (@second_run_changes_nothing world_rewritten src_rewritten dst_used);
    try reflexivity.
  apply nodupb_NoDup. reflexivity.
Defined.

(** ** A source without damage *)

Lemma find_bucket_In_key items k sb :
  find_bucket items k = Some sb -> In (Marker k (Some sb)) items.
Proof.
  induction items as [|[k0 v|k0 h] items IH]; simpl; [discriminate| |].
  - destruct (bytes_eqb k0 k); [discriminate|]. intros H. right. now apply IH.
  - eqb_cases k0 k.
    + intros ->. left. now subst.
    + intros H. right. now apply IH.
Qed.

Lemma NoDup_keys_split pre x post :
  NoDup (map item_key (pre ++ x :: post)) ->
  ~ In (item_key x) (map item_key pre) /\ ~ In (item_key x) (map item_key post).
Proof.
  rewrite map_app. simpl. intros H. apply NoDup_remove_2 in H.
  split; intros Hin; apply H; apply in_or_app; tauto.
Qed.

(** X13: on a source that lists no name and yields no key twice, run
    into an empty destination, every top-level bucket that is recovered
    without a panic by a transaction that commits is in the destination
    with every value entry it yielded that [Put] accepts, and with every
    such value entry of each of its sub-buckets under the sub-bucket's
    name, however the enumeration of the sub-bucket ended. *)
Theorem healthy_entries_reach_destination
    (w : world) (src : bucket) (n : bytes) (b : bucket) :
  List.length (args w) = 3 -> open_src w = OK src -> open_dst w = OK [] ->
  fin_of src = Done -> unique_keys src = true ->
  Bucket_Bucket src n = Some b -> (forall r, fin_of b <> Unwound r) ->
  n <> [] -> commit_error w n = None ->
  exists d t,
    dest (main w) = Some d /\ lookup n d = Some t
    /\ (forall k v,
          In (Value k v) (items_of b) -> put_check k v = None ->
          lookup k t = Some (Leaf v))
    /\ (forall ks sb k v,
          In (Marker ks (Some sb)) (items_of b) -> ks <> [] ->
          In (Value k v) (items_of sb) -> put_check k v = None ->
          exists c, lookup ks t = Some (Nested c) /\ lookup k c = Some (Leaf v)).
Proof.
  intros Ha Hs Hd Hf Hu Hb Hfb Hn Hc.
  unfold unique_keys in Hu. apply andb_true_iff in Hu. destruct Hu as [Hnames Hsubs].
  apply nodupb_NoDup in Hnames.
  pose proof (@subs_all_Bucket unique_keys_bucket src n b Hsubs Hb) as Hub.
  unfold unique_keys_bucket in Hub. apply andb_true_iff in Hub.
  destruct Hub as [Hkeys Hsb]. apply nodupb_NoDup in Hkeys.
  assert (Hin : In n (bucket_names src)).
  { apply find_bucket_In_key in Hb. unfold bucket_names.
    apply in_map_iff. now exists (Marker n (Some b)). }
  rewrite (main_eq w Ha Hs Hd), Hf.
  pose proof (@recover_all_lookup src (commit_error w) (bucket_names src) [] 0 0 n
                Hnames Hin) as L.
  destruct (recover_all _ _ _ _ _ _) as [[[d' log] total] failed].
  unfold ra_dst in L. simpl in L.
  destruct (@recoverBucket_succeeded src (commit_error w) [] n) as [t Ht].
  { rewrite recoverBucket_ok. unfold bucket_succeeds, unwinds, commits.
    rewrite Hb, Hc. destruct (fin_of b) as [|e|r]; try now destruct n.
    now destruct (Hfb r). }
  exists d', t. split; [reflexivity|]. split; [congruence|]. split.
  - intros k v Hv Hk.
    destruct (in_split _ _ Hv) as (pre & post & Hitems).
    rewrite Hitems in Hkeys. destruct (NoDup_keys_split _ _ _ Hkeys) as [H1 H2].
    destruct (@direct_entry_recovered src (commit_error w) [] n b pre k v post
                Hb Hfb Hn Hc eq_refl Hitems H1 H2 Hk) as (t' & Ht' & Hl).
    congruence.
  - intros ks sb k v Hm Hks Hv Hk.
    destruct (in_split _ _ Hm) as (pre & post & Hitems).
    pose proof Hkeys as Hkeys'. rewrite Hitems in Hkeys'.
    destruct (NoDup_keys_split _ _ _ Hkeys') as [H1 H2].
    assert (Hsbk : distinct_keys sb = true).
    { unfold subs_all in Hsb. rewrite forallb_forall in Hsb. exact (Hsb _ Hm). }
    apply nodupb_NoDup in Hsbk.
    destruct (in_split _ _ Hv) as (pre' & post' & Hsitems).
    rewrite Hsitems in Hsbk. destruct (NoDup_keys_split _ _ _ Hsbk) as [H3 H4].
    destruct (@sub_entry_recovered src (commit_error w) [] n b pre ks sb post
                pre' k v post' Hb Hfb Hn Hc eq_refl Hitems H1 H2 Hks Hsitems
                H3 H4 Hk) as (t' & c & Ht' & Hl & Hlk).
    exists c. split; congruence.
Qed.

Lemma healthy_entries_reach_destination_witness :
  exists d t,
    dest (main world_healthy) = Some d /\ lookup (B "settings") d = Some t
    /\ lookup (B "version") t = Some (Leaf (B "2"))
    /\ exists c, lookup (B "ldap") t = Some (Nested c)
                 /\ lookup (B "url") c = Some (Leaf (B "ldap://x")).
Proof.
  destruct (@healthy_entries_reach_destination world_healthy src_healthy
              (B "settings")
              (MkBucket
                 [Value (B "version") (B "2");
                  Marker (B "ldap")
                    (Some (MkBucket [Value (B "url") (B "ldap://x")] Done))]
                 Done))
    as (d & t & Hd & Ht & Hdirect & Hsub);
    try reflexivity; try discriminate.
  exists d, t. split; [exact Hd|]. split; [exact Ht|]. split.
  - apply Hdirect; [simpl; tauto|reflexivity].
  - apply (Hsub (B "ldap") (MkBucket [Value (B "url") (B "ldap://x")] Done));
      try reflexivity; try discriminate; simpl; tauto.
Defined.
